(** * audio-looper: loop detection and seamless playback (main.go)

    A shallow embedding of [detectLoopSegment], [playAudioSegment] and
    [seamlessLoop] from main.go, together with the data they work on:
    IEEE-754 binary64 samples, Go's machine integers, the beep stream
    interface and the oto player; then of [openAudioFile] and [main],
    with the calls they make outside the program gathered in a host. *)

From Stdlib Require Import ZArith Lia Bool List.
From Stdlib Require Import Floats.SpecFloat.
From Stdlib Require Import DecimalString.
From stdpp Require Import base list strings.
Import ListNotations.

Local Open Scope Z_scope.

(** ** Machine numbers *)

(** Go's [int] on the 64-bit targets: a signed 64-bit integer whose
    arithmetic wraps around. *)
Definition int_min : Z := - 2 ^ 63.
Definition int_max : Z := 2 ^ 63 - 1.

Definition wrap (z : Z) : Z := (z + 2 ^ 63) mod 2 ^ 64 - 2 ^ 63.

Definition int_add (a b : Z) : Z := wrap (a + b).
Definition int_sub (a b : Z) : Z := wrap (a - b).
Definition int_mul (a b : Z) : Z := wrap (a * b).

(** [int16]: signed 16-bit, two's complement. *)
Definition wrap16 (z : Z) : Z := (z + 2 ^ 15) mod 2 ^ 16 - 2 ^ 15.

(** A [byte] is an unsigned 8-bit value, kept as a [Z] in [0, 256). *)
Definition byte := Z.

(** [byte(x)] for an integer [x]: the low eight bits. *)
Definition to_byte (z : Z) : byte := Z.land z 255.

(** ** float64 *)

(** A [float64] is an IEEE-754 binary64 value: 53 bits of precision,
    infinities at exponent 1024. *)
Definition float64 := spec_float.

Definition f64_add : float64 -> float64 -> float64 := SFadd 53 1024.
Definition f64_mul : float64 -> float64 -> float64 := SFmul 53 1024.
Definition f64_div : float64 -> float64 -> float64 := SFdiv 53 1024.
Definition f64_lt : float64 -> float64 -> bool := SFltb.

(** The float64 nearest to an integer constant. *)
Definition f64_of_Z (z : Z) : float64 := binary_normalize 53 1024 z 0 false.

(** The float64 that the constant [0.001] denotes: 0x1.0624dd2f1a9fcp-10. *)
Definition f64_0_001 : float64 := S754_finite false 4611686018427388 (-62).

Definition f64_zero : float64 := S754_zero false.
Definition f64_one : float64 := f64_of_Z 1.
Definition f64_minus_one : float64 := SFopp f64_one.

(** Truncation of a float64 towards zero; [None] for NaN and the
    infinities. *)
Definition f64_trunc (x : float64) : option Z :=
  match x with
  | S754_zero _ => Some 0
  | S754_finite s m e =>
      let mag := if 0 <=? e then Z.shiftl (Z.pos m) e
                 else Z.shiftr (Z.pos m) (- e) in
      Some (if s then - mag else mag)
  | S754_infinity _ | S754_nan => None
  end.

(** [int16(x)] for a float64 [x].  The fraction is discarded.  The Go
    specification leaves the result open when the truncated value does
    not fit; the gc compiler on amd64 converts to a 32-bit integer first
    (yielding the pattern 0x80000000 when that fails) and then keeps the
    low 16 bits, which is what is written here. *)
Definition int16_of_f64 (x : float64) : Z :=
  match f64_trunc x with
  | Some z => if (- 2 ^ 31 <=? z) && (z <? 2 ^ 31) then wrap16 z else 0
  | None => 0
  end.

(** ** Samples *)

(** One element of a [[][2]float64] buffer: left and right channel. *)
Definition sample : Type := float64 * float64.

Definition channel (s : sample) (ch : nat) : float64 :=
  match ch with O => fst s | _ => snd s end.

(** [beep.Format]. *)
Record Format := mkFormat {
  SampleRate : Z;
  NumChannels : Z;
  Precision : Z
}.

(** ** PCM packing (the body of the conversion loop in playAudioSegment) *)

(** One pass of the inner [ch] loop: convert one channel value and store
    its two bytes, low byte first. *)
Definition storeChannel (writeBuffer : list byte) (i ch : nat) (v : float64)
  : list byte :=
  let smp := int16_of_f64 (f64_mul v (f64_of_Z 32767)) in
  let writeBuffer := <[ (i * 4 + ch * 2)%nat := to_byte smp ]> writeBuffer in
  <[ (i * 4 + ch * 2 + 1)%nat := to_byte (Z.shiftr smp 8) ]> writeBuffer.

(** The [for ch := 0; ch < 2; ch++] loop for sample [i]. *)
Definition storeSample (writeBuffer : list byte) (i : nat) (s : sample)
  : list byte :=
  storeChannel (storeChannel writeBuffer i 0 (channel s 0)) i 1 (channel s 1).

(** The [for i := 0; i < n; i++] loop, entered at index [i] with the
    samples [buffer[i:n]] still to convert. *)
Fixpoint storeFrom (i : nat) (rest : list sample) (writeBuffer : list byte)
  : list byte :=
  match rest with
  | [] => writeBuffer
  | s :: rest' => storeFrom (S i) rest' (storeSample writeBuffer i s)
  end.

(** [writeBuffer := make([]byte, n*4)] followed by the conversion loops.
    [n] is at most the 1024 samples of a buffer, so the index arithmetic
    stays far inside the range of [int] and is done on [nat]; every index
    written lies inside [writeBuffer] (see [storeSample_at]). *)
Definition encodeBuffer (buffer : list sample) : list byte :=
  storeFrom 0 buffer (replicate (length buffer * 4) 0).

(** The little-endian two's-complement encoding of a 16-bit integer. *)
Definition le_int16 (v : Z) : list byte := [v mod 256; (v / 256) mod 256].

(** The four bytes of one packed sample. *)
Definition packSample (s : sample) : list byte :=
  let l := int16_of_f64 (f64_mul (fst s) (f64_of_Z 32767)) in
  let r := int16_of_f64 (f64_mul (snd s) (f64_of_Z 32767)) in
  [to_byte l; to_byte (Z.shiftr l 8); to_byte r; to_byte (Z.shiftr r 8)].


(** ** The stream and the player *)

(** The value a failed [Seek] returns. *)
Variant error := errSeek.

(** [beep.StreamSeeker], the part of [beep.StreamSeekCloser] the program
    calls.  [Stream s k] is the call [n, ok := s.Stream(buffer)] on a
    buffer of length [k]: it hands back the samples [buffer[:n]] the
    stream wrote (so [n] is their number), the flag [ok], and the stream
    after the call.  [Seek s p] is [s.Seek(p)]. *)
Class StreamSeeker (S : Type) := {
  Stream : S -> nat -> list sample * bool * S;
  Seek : S -> Z -> option error * S;
  Len : S -> Z;
  Position : S -> Z
}.

(** What beep asks of every implementation: a call never returns more
    samples than the buffer holds, and a call that delivers samples moves
    the position towards the (finite) length. *)
Class StreamSeekerLaws (S : Type) `{StreamSeeker S} : Prop := {
  Stream_fits : forall s k b ok s',
    Stream s k = (b, ok, s') -> (length b <= k)%nat;
  Stream_advances : forall s k b s',
    Stream s k = (b, true, s') -> b <> [] ->
    0 <= Len s' - Position s' < Len s - Position s
}.

(** An upper bound on the number of calls that can still deliver samples. *)
Definition fuelOf {S} `{StreamSeeker S} (s : S) : nat :=
  Datatypes.S (Z.to_nat (Len s - Position s)).

(** [oto.Player], observed through the buffers passed to [Write], oldest
    first.  The program ignores what [Write] returns. *)
Definition Player := list (list byte).

Definition Write (player : Player) (buf : list byte) : Player :=
  player ++ [buf].

(** ** detectLoopSegment *)

Definition threshold : float64 := f64_0_001.
Definition silenceDuration : Z := 44100 / 10.

(** The variables [start], [end] and [silenceCount]. *)
Record DetectState := mkDetect {
  start : Z;
  end_ : Z;
  silenceCount : Z
}.

Definition detectInit : DetectState := mkDetect 0 0 0.

(** [amp := (buffer[j][0] + buffer[j][1]) / 2]. *)
Definition amp (x : sample) : float64 :=
  f64_div (f64_add (fst x) (snd x)) (f64_of_Z 2).

(** The body of the loop over [j], for sample [x = buffer[j]] of batch [i]. *)
Definition sampleStep (i j : Z) (x : sample) (st : DetectState) : DetectState :=
  if f64_lt (amp x) threshold then
    mkDetect (start st) (end_ st) (int_add (silenceCount st) 1)
  else
    let st' :=
      if silenceDuration <? silenceCount st
      then mkDetect (end_ st) (int_add (int_mul i 1024) j) (silenceCount st)
      else st in
    mkDetect (start st') (end_ st') 0.

(** [for j := 0; j < n; j++], entered at [j] with [buffer[j:n]] to go. *)
Fixpoint scanBuffer (i j : Z) (rest : list sample) (st : DetectState)
  : DetectState :=
  match rest with
  | [] => st
  | x :: rest' => scanBuffer i (int_add j 1) rest' (sampleStep i j x st)
  end.

Section Programs.
Context {S : Type} `{StreamSeeker S}.

(** [for i := 0; ; i++], entered at [i].  [None] when [fuel] calls were
    not enough to reach the [break]. *)
Fixpoint detectLoop (fuel : nat) (streamer : S) (i : Z) (st : DetectState)
  : option (DetectState * S) :=
  match fuel with
  | O => None
  | Datatypes.S fuel' =>
      let '(buffer, ok, streamer') := Stream streamer 1024 in
      if negb ok || (length buffer =? 0)%nat then Some (st, streamer')
      else detectLoop fuel' streamer' (int_add i 1)
             (scanBuffer i 0 buffer st)
  end.

(** [detectLoopSegment]: the pair [(start, end)] and the stream as the
    scan left it. *)
Definition detectLoopSegment (streamer : S) : option (Z * Z * S) :=
  match detectLoop (fuelOf streamer) streamer 0 detectInit with
  | Some (st, streamer') => Some (start st, end_ st, streamer')
  | None => None
  end.

(** ** playAudioSegment and seamlessLoop *)

(** [for samplesPlayed < segmentLength]. *)
Fixpoint playLoop (fuel : nat) (player : Player) (streamer : S)
    (segmentLength samplesPlayed : Z) : option (Player * S) :=
  if samplesPlayed <? segmentLength then
    match fuel with
    | O => None
    | Datatypes.S fuel' =>
        let '(buffer, ok, streamer') := Stream streamer 1024 in
        if negb ok || (length buffer =? 0)%nat then Some (player, streamer')
        else
          playLoop fuel' (Write player (encodeBuffer buffer)) streamer'
            segmentLength (int_add samplesPlayed (Z.of_nat (length buffer)))
    end
  else Some (player, streamer).

Definition playAudioSegment (player : Player) (streamer : S)
    (segmentLength : Z) (format : Format) : option (Player * S) :=
  playLoop (fuelOf streamer) player streamer segmentLength 0.

(** One pass through the body of the [for] in [seamlessLoop]. *)
Definition seamlessLoopBody (player : Player) (originalStreamer : S)
    (start end_ : Z) (format : Format) : option (Player * S) :=
  let '(_, originalStreamer') := Seek originalStreamer start in
  playAudioSegment player originalStreamer' (int_sub end_ start) format.

(** The first [iters] passes of [seamlessLoop], which never returns. *)
Fixpoint seamlessLoop (iters : nat) (player : Player) (originalStreamer : S)
    (start end_ : Z) (format : Format) : option (Player * S) :=
  match iters with
  | O => Some (player, originalStreamer)
  | Datatypes.S iters' =>
      match seamlessLoopBody player originalStreamer start end_ format with
      | Some (player', originalStreamer') =>
          seamlessLoop iters' player' originalStreamer' start end_ format
      | None => None
      end
  end.

(** The batches a scan of the stream processes: the results of the
    successive calls up to the first that is empty or not ok. *)
Fixpoint drain (fuel : nat) (streamer : S) : list (list sample) :=
  match fuel with
  | O => []
  | Datatypes.S fuel' =>
      let '(buffer, ok, streamer') := Stream streamer 1024 in
      if negb ok || (length buffer =? 0)%nat then []
      else buffer :: drain fuel' streamer'
  end.

Definition batches (streamer : S) : list (list sample) :=
  drain (fuelOf streamer) streamer.

End Programs.

(** ** Streams to run the program on *)

(** Modelled from the spec: the decoded sample stream, an ordered finite
    sequence of samples behind a cursor.  A call yields the next samples,
    as many as fit the buffer; it yields none, and reports not ok, once
    the cursor is at or past the end.  Seeking to an index at or beyond
    the length is accepted and leaves nothing to read. *)
Record SliceStream := mkSlice {
  data : list sample;
  pos : Z
}.

#[export] Instance SliceStream_StreamSeeker : StreamSeeker SliceStream := {
  Stream s k :=
    if (pos s <? 0) || (Z.of_nat (length (data s)) <=? pos s)
    then ([], false, s)
    else
      let b := take k (drop (Z.to_nat (pos s)) (data s)) in
      (b, negb (length b =? 0)%nat,
       mkSlice (data s) (pos s + Z.of_nat (length b)));
  Seek s p :=
    if p <? 0 then (Some errSeek, s) else (None, mkSlice (data s) p);
  Len s := Z.of_nat (length (data s));
  Position s := pos s
}.

Definition newSliceStream (l : list sample) : SliceStream := mkSlice l 0.

(** A stream over another one whose reads go wrong after [healthy] calls:
    from then on every call reports not ok, handing back at most
    [partial]. *)
Record Faulty (S : Type) := mkFaulty {
  inner : S;
  healthy : nat;
  partial : list sample
}.
Arguments mkFaulty {S}.
Arguments inner {S}.
Arguments healthy {S}.
Arguments partial {S}.

#[export] Instance Faulty_StreamSeeker {S} `{StreamSeeker S}
  : StreamSeeker (Faulty S) := {
  Stream f k :=
    match healthy f with
    | O => (take k (partial f), false, f)
    | Datatypes.S h =>
        let '(b, ok, s') := Stream (inner f) k in
        (b, ok, mkFaulty s' h (partial f))
    end;
  Seek f p :=
    let '(e, s') := Seek (inner f) p in
    (e, mkFaulty s' (healthy f) (partial f));
  Len f := Len (inner f);
  Position f := Position (inner f)
}.

(** ** Silence runs, as properties of a sample sequence *)

Definition silent (x : sample) : bool := f64_lt (amp x) threshold.

(** The number of [true]s a sequence of flags opens with. *)
Fixpoint leadingTrue (fs : list bool) : nat :=
  match fs with
  | true :: fs' => Datatypes.S (leadingTrue fs')
  | _ => O
  end.

(** The number of consecutive [true]s immediately before index [k]. *)
Definition runBefore (fs : list bool) (k : nat) : nat :=
  leadingTrue (reverse (take k fs)).

(** The number of consecutive silent samples immediately before index [k]. *)
Definition silentRunBefore (l : list sample) (k : nat) : nat :=
  runBefore (map silent l) k.

(** The length of the longest run of consecutive silent samples. *)
Definition longestSilentRun (l : list sample) : nat :=
  let fs := map silent l in
  foldr Nat.max O (map (runBefore fs) (seq 0 (Datatypes.S (length fs)))).

(** With [fs] telling which samples are silent, index [k] is a boundary:
    sample [k] is not silent and ends a silent run of more than
    [silenceDuration] samples. *)
Definition boundaryAt (fs : list bool) (k : nat) : bool :=
  match fs !! k with
  | Some false => silenceDuration <? Z.of_nat (runBefore fs k)
  | _ => false
  end.

(** The boundaries of [l], in increasing order. *)
Definition boundaries (l : list sample) : list nat :=
  let fs := map silent l in
  List.filter (boundaryAt fs) (seq 0 (length fs)).

(** The last two elements of a list of indices as a pair, with 0 standing
    in for what is missing. *)
Definition lastTwo (bs : list Z) : Z * Z :=
  match rev bs with
  | [] => (0, 0)
  | [e] => (0, e)
  | e :: s :: _ => (s, e)
  end.

(** The index [i*1024 + j] under which the scan sees each sample of the
    batches [bs], the first of which is batch number [i]. *)
Fixpoint batchIndexes (i : Z) (bs : list (list sample)) : list Z :=
  match bs with
  | [] => []
  | b :: bs' =>
      map (fun j => i * 1024 + Z.of_nat j) (seq 0 (length b))
      ++ batchIndexes (i + 1) bs'
  end.

(** The boundaries of the samples in [bs], each under the index the scan
    sees it at. *)
Definition recordedBoundaries (bs : list (list sample)) : list Z :=
  map (fun k => nth k (batchIndexes 0 bs) 0) (boundaries (concat bs)).

(** ** The scan, seen from outside *)

(** A stream short enough for the counters of the scan to stay clear of
    the 64-bit range. *)
Definition scannable {S} `{StreamSeeker S} (streamer : S) : Prop :=
  Len streamer - Position streamer < 2 ^ 53 - 1.

(** What holds of the variables of the scan once it has processed the
    samples [p], seen under the indices [idxs], and will give the next
    sample an index of at least [hi]. *)
Definition ScanInv (p : list sample) (idxs : list Z) (st : DetectState)
    (hi : Z) : Prop :=
  length idxs = length p
  /\ silenceCount st = Z.of_nat (leadingTrue (reverse (map silent p)))
  /\ (start st, end_ st)
     = lastTwo (map (fun k => nth k idxs 0) (boundaries p))
  /\ 0 <= start st <= end_ st
  /\ end_ st <= hi
  /\ Z.of_nat (length p) <= hi.

(** ** Sample sequences for the examples *)

Definition quiet : sample := (f64_zero, f64_zero).
Definition loud : sample := (f64_one, f64_one).

(** A silent run one sample longer than [silenceDuration], ended by a
    loud sample. *)
Definition longRun : list sample := replicate 4411 quiet ++ [loud].

Definition twoRuns : list sample := [loud] ++ longRun ++ longRun.
Definition threeRuns : list sample :=
  longRun ++ [loud] ++ longRun ++ longRun ++ [loud].
Definition noRuns : list sample :=
  [quiet; quiet; quiet; loud; quiet; quiet; loud; loud; quiet].

Definition tenSamples : list sample := replicate 10 loud.
Definition hundredSamples : list sample := replicate 100 loud.

Definition fmt44k : Format := mkFormat 44100 2 2.
Definition fmt48k : Format := mkFormat 48000 2 2.

(** * Further definitions: the rest of the program and what it does *)

(** ** What a pass of the player covers *)

(** The smallest whole number of 1024-sample batches that reaches [n]
    samples, counted in samples; 0 when nothing is asked for. *)
Definition wholeBatches (n : Z) : Z :=
  if n <=? 0 then 0 else 1024 * ((n + 1023) / 1024).

(** The samples of [l] from [start] on, as many as whole batches are
    needed to cover [end_ - start] samples. *)
Definition passSamples (l : list sample) (start end_ : Z) : list sample :=
  take (Z.to_nat (wholeBatches (end_ - start))) (drop (Z.to_nat start) l).

(** A buffer as the player is handed it: between one and 1024 samples of
    four bytes. *)
Definition wholeSamples (buf : list byte) : Prop :=
  (0 < length buf <= 4096)%nat /\ (length buf mod 4 = 0)%nat.

(** ** Reading PCM bytes back *)

(** The 16-bit value a channel amplitude is stored as. *)
Definition quantize (v : float64) : Z :=
  int16_of_f64 (f64_mul v (f64_of_Z 32767)).

(** The signed 16-bit integer whose little-endian bytes are [lo], [hi]. *)
Definition int16_of_le (lo hi : byte) : Z := wrap16 (lo + 256 * hi).

(** Interleaved 16-bit little-endian stereo PCM, read four bytes at a
    time; bytes left over at the end are dropped. *)
Fixpoint decodeBuffer (bs : list byte) : list (Z * Z) :=
  match bs with
  | l0 :: l1 :: r0 :: r1 :: bs' =>
      (int16_of_le l0 l1, int16_of_le r0 r1) :: decodeBuffer bs'
  | _ => []
  end.

(** ** Where the loop points lie *)


(** ** The world around the program *)

(** A Go string: a sequence of bytes. *)
Definition gostring : Type := list Ascii.ascii.

Definition str (s : string) : gostring := String.list_ascii_of_string s.

Definition newline : Ascii.ascii := Ascii.ascii_of_nat 10.

(** [strings.HasSuffix(s, suffix)]:
    [len(s) >= len(suffix) && s[len(s)-len(suffix):] == suffix]. *)
Definition HasSuffix (s suffix : gostring) : bool :=
  (length suffix <=? length s)%nat
  && bool_decide (drop (length s - length suffix) s = suffix).

(** The decoders the program knows: [mp3.Decode], [wav.Decode] and
    [flac.Decode]. *)
Variant Codec := MP3 | WAV | FLAC.

(** An [error]: one that a call outside the program returned, or one made
    on the spot by [fmt.Errorf]. *)
Inductive goerror (E : Type) : Type :=
| HostError (e : E)
| Errorf (msg : gostring).
Arguments HostError {E}.
Arguments Errorf {E}.

(** What the program calls outside itself, as one run finds it: [os.Open],
    the decoders, [oto.NewContext] with its four arguments ([None] is
    success), the text [err.Error()] of an error, the line
    [reader.ReadString] reads from standard input, and
    [strings.TrimSpace]. *)
Class Host (File S E : Type) := {
  os_Open : gostring -> File + E;
  Decode : Codec -> File -> (S * Format) + E;
  oto_NewContext : Z -> Z -> Z -> Z -> option E;
  errorText : E -> gostring;
  stdin_ReadString : gostring;
  strings_TrimSpace : gostring -> gostring
}.

(** What a run does to the world, in order. *)
Inductive Event (File : Type) : Type :=
| EvPrint (text : gostring)
| EvOpen (path : gostring)
| EvDecode (codec : Codec) (file : File)
| EvCloseFile (file : File)
| EvNewContext (sampleRate numChannels bitDepth bufferSize : Z)
| EvNewPlayer
| EvWrite (buf : list byte)
| EvCloseStreamer.
Arguments EvPrint {File}.
Arguments EvOpen {File}.
Arguments EvDecode {File}.
Arguments EvCloseFile {File}.
Arguments EvNewContext {File}.
Arguments EvNewPlayer {File}.
Arguments EvWrite {File}.
Arguments EvCloseStreamer {File}.

(** An [int] as [%v] prints it. *)
Definition showInt (z : Z) : gostring :=
  str (NilZero.string_of_int (Z.to_int z)).

(** The suffix each decoder is chosen by. *)
Definition suffixOf (codec : Codec) : gostring :=
  match codec with
  | MP3 => str ".mp3"
  | WAV => str ".wav"
  | FLAC => str ".flac"
  end.

(** Whether [main] came back or is still in [seamlessLoop]. *)
Variant Outcome := Returned | Looping.

Section Shell.
Context {File S E : Type} `{StreamSeeker S} `{Host File S E}.

(** [err.Error()]. *)
Definition Error (err : goerror E) : gostring :=
  match err with
  | HostError e => errorText e
  | Errorf msg => msg
  end.

(** The end of [openAudioFile] once a decoder has run on [file]: on an
    error the file is closed and the error returned. *)
Definition decoded (filePath : gostring) (codec : Codec) (file : File)
  : ((S * Format) + goerror E) * list (Event File) :=
  match Decode codec file with
  | inr err =>
      (inr (HostError err),
       [EvOpen filePath; EvDecode codec file; EvCloseFile file])
  | inl sf => (inl sf, [EvOpen filePath; EvDecode codec file])
  end.

(** [openAudioFile]: the streamer and format, or the error, and what was
    done to get there. *)
Definition openAudioFile (filePath : gostring)
  : ((S * Format) + goerror E) * list (Event File) :=
  match os_Open filePath with
  | inr err => (inr (HostError err), [EvOpen filePath])
  | inl file =>
      if HasSuffix filePath (str ".mp3") then decoded filePath MP3 file
      else if HasSuffix filePath (str ".wav") then decoded filePath WAV file
      else if HasSuffix filePath (str ".flac") then decoded filePath FLAC file
      else (inr (Errorf (str "unsupported audio format")), [EvOpen filePath])
  end.

(** [fmt.Println(a, err)]. *)
Definition printlnError (a : gostring) (err : goerror E) : Event File :=
  EvPrint (a ++ str " " ++ Error err ++ [newline]).

(** [main], with [seamlessLoop] followed for [iters] passes. *)
Definition main (iters : nat) : option (list (Event File) * Outcome) :=
  let prompt := [EvPrint (str "Enter the audio file path: ")] in
  let filePath := strings_TrimSpace stdin_ReadString in
  match openAudioFile filePath with
  | (inr err, opened) =>
      Some (prompt ++ opened
            ++ [printlnError (str "Error loading audio file:") err],
            Returned)
  | (inl (streamer, format), opened) =>
      match detectLoopSegment streamer with
      | None => None
      | Some (start, end_, streamer') =>
          let detected :=
            [EvPrint (str "Detected loop segment from " ++ showInt start
                      ++ str " to " ++ showInt end_ ++ [newline])] in
          let sampleRate := SampleRate format in
          let context :=
            EvNewContext sampleRate (NumChannels format) 2 4096 in
          match oto_NewContext sampleRate (NumChannels format) 2 4096 with
          | Some err =>
              Some (prompt ++ opened ++ detected
                    ++ [context;
                        printlnError
                          (str "Error initializing audio player:")
                          (HostError err);
                        EvCloseStreamer],
                    Returned)
          | None =>
              match seamlessLoop iters [] streamer' start end_ format with
              | None => None
              | Some (player, _) =>
                  Some (prompt ++ opened ++ detected
                        ++ [context; EvNewPlayer] ++ map EvWrite player,
                        Looping)
              end
          end
      end
  end.

End Shell.

(** ** A host for the examples *)

(** The six white-space characters of ASCII. *)
Definition asciiSpace (c : Ascii.ascii) : bool :=
  let n := Ascii.nat_of_ascii c in
  ((9 <=? n) && (n <=? 13))%nat || (n =? 32)%nat.

Fixpoint trimLeft (s : gostring) : gostring :=
  match s with
  | c :: s' => if asciiSpace c then trimLeft s' else s
  | [] => []
  end.

(** What [strings.TrimSpace] does to a string of ASCII characters. *)
Definition trimAscii (s : gostring) : gostring :=
  reverse (trimLeft (reverse (trimLeft s))).

(** A host whose standard input holds [line]: every path opens but the
    empty one, the file being known by its path; the WAV and FLAC decoders
    deliver the samples [audio] in the format [format] and the MP3 decoder
    fails; an audio context can be had for a positive sample rate. *)
Definition demoHost (line : gostring) (audio : list sample) (format : Format)
  : Host gostring SliceStream gostring := {|
  os_Open path :=
    if bool_decide (path = []) then inr (str "open : no such file or directory")
    else inl path;
  Decode codec file :=
    match codec with
    | MP3 => inr (str "mp3: invalid data")
    | WAV | FLAC => inl (newSliceStream audio, format)
    end;
  oto_NewContext sampleRate numChannels bitDepth bufferSize :=
    if 0 <? sampleRate then None else Some (str "oto: invalid sample rate");
  errorText e := e;
  stdin_ReadString := line;
  strings_TrimSpace := trimAscii
|}.

(** ** A stream that delivers short batches *)

(** A stream that hands its samples over in the pieces they were decoded
    in: a call delivers the next piece, or as much of it as fits the
    buffer, so that a batch can be short before the end of the audio.
    An empty piece ends the stream.  [served] counts the samples handed
    over so far; the stream cannot seek. *)
Record ChunkStream := mkChunks {
  chunks : list (list sample);
  served : Z
}.

#[export] Instance ChunkStream_StreamSeeker : StreamSeeker ChunkStream := {
  Stream s k :=
    match chunks s with
    | [] => ([], false, s)
    | c :: cs =>
        let b := take k c in
        (b, negb (length b =? 0)%nat,
         mkChunks (if (length c <=? k)%nat then cs else drop k c :: cs)
                  (served s + Z.of_nat (length b)))
    end;
  Seek s p := (Some errSeek, s);
  Len s := served s + Z.of_nat (length (concat (chunks s)));
  Position s := served s
}.

(** 500 silent samples that arrive as a batch of their own, then
    [longRun]. *)
Definition shortFirst : ChunkStream :=
  mkChunks [replicate 500 quiet; longRun] 0.

(** * Properties *)

(** ** Machine numbers and float64 constants *)

Lemma wrap_small (z : Z) : int_min <= z <= int_max -> wrap z = z.
Proof.
  unfold wrap, int_min, int_max. intros Hz.
  rewrite Z.mod_small by lia. lia.
Qed.

(** Closes a goal that only asks for a value to lie in the range of
    [int]. *)
Ltac int_range := unfold int_min, int_max in *; lia.

(** The mantissa chosen for [0.001] is the 53-bit one nearest to
    [2^62 / 1000]: the distance is below half a unit in the last place. *)
Lemma f64_0_001_nearest :
  f64_0_001 = S754_finite false 4611686018427388 (-62)
  /\ 2 ^ 52 <= 4611686018427388 < 2 ^ 53
  /\ 2 * Z.abs (1000 * 4611686018427388 - 2 ^ 62) < 1000.
Proof. repeat split; vm_compute; congruence. Qed.

(** Anything negative compares below the threshold, and so do the zeros. *)
Lemma negative_below_threshold (a : float64) :
  f64_lt a f64_zero = true -> f64_lt a threshold = true.
Proof.
  intros Hneg. destruct a as [s|s| |s m e]; cbn in Hneg; try discriminate.
  - destruct s; [reflexivity | discriminate].
  - destruct s; [reflexivity | discriminate].
Qed.

Lemma zero_below_threshold (s : bool) : f64_lt (S754_zero s) threshold = true.
Proof. reflexivity. Qed.

(** Two channels in exact phase opposition sum, and average, to zero. *)
Lemma f64_add_opposite (s : bool) (m : positive) (e : Z) :
  f64_add (S754_finite s m e) (S754_finite (negb s) m e) = S754_zero false.
Proof.
  unfold f64_add, SFadd.
  set (a := Z.pos (fst (shl_align m e (Z.min e e)))).
  replace (cond_Zopp s a + cond_Zopp (negb s) a) with 0
    by (destruct s; cbn; lia).
  reflexivity.
Qed.

Lemma amp_opposite (s : bool) (m : positive) (e : Z) :
  amp (S754_finite s m e, S754_finite (negb s) m e) = S754_zero false.
Proof.
  unfold amp; cbn [fst snd]. rewrite f64_add_opposite. reflexivity.
Qed.

(** ** PCM packing *)

Lemma storeSample_at (pre tl : list byte) (i : nat) (s : sample) :
  length pre = (i * 4)%nat ->
  storeSample (pre ++ 0 :: 0 :: 0 :: 0 :: tl) i s = pre ++ packSample s ++ tl.
Proof.
  intros Hlen. unfold storeSample, storeChannel, packSample, channel.
  replace (i * 4 + 0 * 2)%nat with (length pre + 0)%nat by lia.
  replace (i * 4 + 1 * 2)%nat with (length pre + 2)%nat by lia.
  replace (length pre + 0 + 1)%nat with (length pre + 1)%nat by lia.
  replace (length pre + 2 + 1)%nat with (length pre + 3)%nat by lia.
  rewrite !insert_app_r. reflexivity.
Qed.

Lemma storeFrom_zeros (rest : list sample) :
  forall (i : nat) (pre : list byte),
    length pre = (i * 4)%nat ->
    storeFrom i rest (pre ++ replicate (length rest * 4) 0)
    = pre ++ flat_map packSample rest.
Proof.
  induction rest as [|s rest IH]; intros i pre Hlen.
  - reflexivity.
  - cbn [storeFrom length flat_map].
    change (replicate (Datatypes.S (length rest) * 4) 0)
      with (0 :: 0 :: 0 :: 0 :: replicate (length rest * 4) 0).
    rewrite storeSample_at by exact Hlen.
    rewrite (app_assoc pre), IH, <- app_assoc; [reflexivity|].
    rewrite length_app. unfold packSample. cbn [length]. lia.
Qed.

Lemma encodeBuffer_flat (buffer : list sample) :
  encodeBuffer buffer = flat_map packSample buffer.
Proof. exact (storeFrom_zeros buffer O [] eq_refl). Qed.

Lemma encodeBuffer_length (buffer : list sample) :
  length (encodeBuffer buffer) = (4 * length buffer)%nat.
Proof.
  rewrite encodeBuffer_flat.
  induction buffer as [|s b IH]; [reflexivity|].
  cbn [flat_map]. rewrite length_app, IH. unfold packSample. cbn [length]. lia.
Qed.

(** C6: the sample (1.0, -1.0) is packed into the little-endian 16-bit
    encodings of 32767 and then -32767, left channel first, that is the
    bytes ff 7f 01 80; the sample (0.0, 0.0) is packed into four zero
    bytes; and every sample of a buffer is packed this way, in order. *)
Theorem C6_pcm_packing :
  encodeBuffer [(f64_one, f64_minus_one)] = le_int16 32767 ++ le_int16 (-32767)
  /\ encodeBuffer [(f64_one, f64_minus_one)] = [255; 127; 1; 128]
  /\ encodeBuffer [(f64_zero, f64_zero)] = [0; 0; 0; 0]
  /\ f64_one = S754_finite false 4503599627370496 (-52)
  /\ f64_minus_one = S754_finite true 4503599627370496 (-52)
  /\ forall buffer : list sample,
       encodeBuffer buffer = flat_map (fun x => encodeBuffer [x]) buffer.
Proof.
  split; [vm_compute; reflexivity|].
  split; [vm_compute; reflexivity|].
  split; [vm_compute; reflexivity|].
  split; [vm_compute; reflexivity|].
  split; [vm_compute; reflexivity|].
  intros buffer. rewrite encodeBuffer_flat.
  apply flat_map_ext. intros x. rewrite encodeBuffer_flat.
  cbn [flat_map]. rewrite app_nil_r. reflexivity.
Qed.

(** ** The example streams obey the stream laws *)

#[export] Instance SliceStream_Laws : StreamSeekerLaws SliceStream.
Proof.
  split.
  - intros s k b ok s'. cbn [Stream SliceStream_StreamSeeker].
    destruct ((pos s <? 0) || (Z.of_nat (length (data s)) <=? pos s)).
    + intros [= <- _ _]. cbn [length]. lia.
    + intros [= <- _ _]. rewrite length_take. lia.
  - intros s k b s'. cbn [Stream Len Position SliceStream_StreamSeeker].
    destruct ((pos s <? 0) || (Z.of_nat (length (data s)) <=? pos s)) eqn:E.
    + intros [= _ _]; discriminate.
    + intros [= <- _ <-] Hne. cbn [data pos].
      apply orb_false_iff in E as [E1 E2].
      apply Z.ltb_ge in E1. apply Z.leb_gt in E2.
      set (b := take k (drop (Z.to_nat (pos s)) (data s))) in *.
      assert (length b <> 0%nat) by (destruct b; [congruence | cbn; lia]).
      assert (length b <= length (data s) - Z.to_nat (pos s))%nat.
      { subst b. rewrite length_take, length_drop. lia. }
      lia.
Qed.

#[export] Instance Faulty_Laws {S} `{StreamSeekerLaws S}
  : StreamSeekerLaws (Faulty S).
Proof.
  split.
  - intros f k b ok f'. cbn [Stream Faulty_StreamSeeker].
    destruct (healthy f).
    + intros [= <- _ _]. rewrite length_take. lia.
    + destruct (Stream (inner f) k) as [[b0 ok0] s0] eqn:E.
      intros [= <- _ _]. exact (Stream_fits _ _ _ _ _ E).
  - intros f k b f'. cbn [Stream Len Position Faulty_StreamSeeker].
    destruct (healthy f).
    + intros [= _ _]; discriminate.
    + destruct (Stream (inner f) k) as [[b0 ok0] s0] eqn:E.
      intros [= <- -> <-] Hne. cbn [inner].
      exact (Stream_advances _ _ _ _ E Hne).
Qed.

(** ** Silence runs and boundaries of a growing sequence *)

Lemma leadingTrue_snoc (fs : list bool) (f : bool) :
  leadingTrue (reverse (fs ++ [f]))
  = if f then Datatypes.S (leadingTrue (reverse fs)) else O.
Proof. rewrite reverse_snoc. destruct f; reflexivity. Qed.

Lemma runBefore_all (fs : list bool) :
  runBefore fs (length fs) = leadingTrue (reverse fs).
Proof. unfold runBefore. rewrite firstn_all. reflexivity. Qed.

Lemma runBefore_app (fs gs : list bool) (k : nat) :
  (k <= length fs)%nat -> runBefore (fs ++ gs) k = runBefore fs k.
Proof. intros Hk. unfold runBefore. rewrite take_app_le by exact Hk. reflexivity. Qed.

Lemma boundaryAt_app (fs gs : list bool) (k : nat) :
  (k < length fs)%nat -> boundaryAt (fs ++ gs) k = boundaryAt fs k.
Proof.
  intros Hk. unfold boundaryAt.
  rewrite lookup_app_l by exact Hk. rewrite runBefore_app by lia. reflexivity.
Qed.

Lemma boundaryAt_last (fs : list bool) (f : bool) :
  boundaryAt (fs ++ [f]) (length fs)
  = negb f && (silenceDuration <? Z.of_nat (leadingTrue (reverse fs))).
Proof.
  unfold boundaryAt. rewrite list_lookup_middle by reflexivity.
  rewrite runBefore_app, runBefore_all by lia. destruct f; reflexivity.
Qed.

Lemma boundaries_snoc (l : list sample) (x : sample) :
  boundaries (l ++ [x])
  = boundaries l
    ++ (if negb (silent x)
           && (silenceDuration
               <? Z.of_nat (leadingTrue (reverse (map silent l))))
        then [length l] else []).
Proof.
  unfold boundaries. cbv zeta.
  rewrite map_app. cbn [map].
  rewrite length_app. cbn [length].
  replace (length (map silent l) + 1)%nat
    with (Datatypes.S (length (map silent l))) by lia.
  rewrite seq_S, List.filter_app. cbn [Nat.add List.filter].
  rewrite boundaryAt_last, length_map.
  f_equal.
  apply filter_ext_in. intros k Hk. apply in_seq in Hk.
  apply boundaryAt_app. rewrite length_map. lia.
Qed.

Lemma boundaries_lt (l : list sample) (k : nat) :
  In k (boundaries l) -> (k < length l)%nat.
Proof.
  unfold boundaries. cbv zeta. intros Hk.
  apply filter_In in Hk as [Hk _]. apply in_seq in Hk.
  rewrite length_map in Hk. lia.
Qed.

Lemma boundaries_run (l : list sample) (k : nat) :
  In k (boundaries l) -> silenceDuration < Z.of_nat (silentRunBefore l k).
Proof.
  unfold boundaries, silentRunBefore. cbv zeta. intros Hk.
  apply filter_In in Hk as [_ Hk]. unfold boundaryAt in Hk.
  destruct (map silent l !! k) as [[]|]; try discriminate.
  apply Z.ltb_lt. exact Hk.
Qed.

Lemma lastTwo_snoc (bs : list Z) (b : Z) :
  lastTwo (bs ++ [b]) = (snd (lastTwo bs), b).
Proof.
  unfold lastTwo. rewrite rev_app_distr. cbn [rev app].
  destruct (rev bs) as [|e [|s r]]; reflexivity.
Qed.

Lemma lastTwo_nth (bs : list Z) :
  (2 <= length bs)%nat ->
  lastTwo bs = (nth (length bs - 2) bs 0, nth (length bs - 1) bs 0).
Proof.
  intros Hlen.
  destruct (rev bs) as [|e [|s r]] eqn:E;
    apply (f_equal (@rev Z)) in E; rewrite rev_involutive in E; subst bs.
  - cbn in Hlen. lia.
  - cbn in Hlen. lia.
  - cbn [rev] in *. rewrite <- app_assoc. cbn [app].
    change (rev r ++ [s; e]) with (rev r ++ [s] ++ [e]).
    rewrite app_assoc, lastTwo_snoc.
    rewrite lastTwo_snoc. cbn [snd].
    rewrite !length_app. cbn [length].
    f_equal.
    + rewrite app_nth1 by (rewrite length_app; cbn; lia).
      rewrite app_nth2 by lia.
      replace (length (rev r) + 1 + 1 - 2 - length (rev r))%nat with O by lia.
      reflexivity.
    + rewrite app_nth2 by (rewrite length_app; cbn; lia).
      rewrite length_app. cbn [length].
      replace (length (rev r) + 1 + 1 - 1 - (length (rev r) + 1))%nat
        with O by lia.
      reflexivity.
Qed.

(** ** The scan keeps its invariant *)

Lemma ScanInv_init : ScanInv [] [] detectInit 0.
Proof. unfold ScanInv, detectInit. cbn. repeat split; lia. Qed.

Lemma ScanInv_weaken p idxs st hi hi' :
  ScanInv p idxs st hi -> hi <= hi' -> ScanInv p idxs st hi'.
Proof. unfold ScanInv. intros (? & ? & ? & ? & ? & ?) Hle. repeat split; try assumption; lia. Qed.

Lemma map_nth_snoc (idxs : list Z) (idx : Z) (ks : list nat) :
  (forall k, In k ks -> (k < length idxs)%nat) ->
  map (fun k => nth k (idxs ++ [idx]) 0) ks = map (fun k => nth k idxs 0) ks.
Proof.
  intros Hks. apply map_ext_in. intros k Hk.
  apply app_nth1. apply Hks. exact Hk.
Qed.

Lemma leadingTrue_le (fs : list bool) : (leadingTrue fs <= length fs)%nat.
Proof. induction fs as [|[] fs IH]; cbn [leadingTrue length]; lia. Qed.

Lemma silentRun_le (p : list sample) :
  (leadingTrue (reverse (map silent p)) <= length p)%nat.
Proof.
  pose proof (leadingTrue_le (reverse (map silent p))) as Hle.
  rewrite length_reverse, length_map in Hle. exact Hle.
Qed.

(** One sample: the index it is seen under is [i * 1024 + j]. *)
Lemma sampleStep_inv (i j : Z) (x : sample) p idxs st :
  ScanInv p idxs st (i * 1024 + j) ->
  0 <= i -> 0 <= j -> i * 1024 + j < int_max ->
  ScanInv (p ++ [x]) (idxs ++ [i * 1024 + j]) (sampleStep i j x st)
    (i * 1024 + j + 1).
Proof.
  intros (Hlen & Hcount & Hpair & Hord & Hhi & Hsize) Hi Hj Hmax.
  assert (Hidx : int_add (int_mul i 1024) j = i * 1024 + j).
  { unfold int_add, int_mul.
    rewrite (wrap_small (i * 1024)) by int_range.
    apply wrap_small. int_range. }
  assert (Hinc : int_add (silenceCount st) 1 = silenceCount st + 1).
  { pose proof (silentRun_le p).
    unfold int_add. apply wrap_small. int_range. }
  assert (Hmap : map (fun k => nth k (idxs ++ [i * 1024 + j]) 0) (boundaries p)
                 = map (fun k => nth k idxs 0) (boundaries p)).
  { apply map_nth_snoc. intros k Hk. apply boundaries_lt in Hk. lia. }
  unfold ScanInv, sampleStep.
  rewrite boundaries_snoc, (List.map_app silent p [x]).
  cbn [map]. rewrite leadingTrue_snoc, !length_app.
  cbn [length]. rewrite List.map_app, Hmap.
  fold (silent x). rewrite <- Hcount.
  destruct (silent x) eqn:Hsil; cbn [negb andb].
  - cbn [map start end_ silenceCount]. rewrite app_nil_r, Hinc.
    repeat split; try lia. exact Hpair.
  - destruct (silenceDuration <? silenceCount st) eqn:Hlong;
      cbn [map start end_ silenceCount].
    + rewrite lastTwo_snoc, <- Hpair. cbn [snd].
      rewrite app_nth2 by lia.
      replace (length p - length idxs)%nat with O by lia.
      cbn [nth]. rewrite Hidx.
      repeat split; try lia.
    + rewrite app_nil_r. repeat split; try lia. exact Hpair.
Qed.

(** One batch: its samples are seen under [i * 1024 + j], [j = 0, 1, ...]. *)
Lemma scanBuffer_inv (i : Z) (rest : list sample) :
  forall (j : Z) p idxs st,
    ScanInv p idxs st (i * 1024 + j) ->
    0 <= i -> 0 <= j ->
    i * 1024 + j + Z.of_nat (length rest) <= int_max ->
    ScanInv (p ++ rest)
      (idxs ++ map (fun j' => i * 1024 + (j + Z.of_nat j'))
                 (seq 0 (length rest)))
      (scanBuffer i j rest st)
      (i * 1024 + j + Z.of_nat (length rest)).
Proof.
  induction rest as [|x rest IH]; intros j p idxs st Hinv Hi Hj Hmax.
  - cbn [length seq map scanBuffer]. rewrite !app_nil_r, Z.add_0_r. exact Hinv.
  - cbn [length] in Hmax. cbn [scanBuffer length].
    assert (Hj1 : int_add j 1 = j + 1).
    { unfold int_add. apply wrap_small. int_range. }
    rewrite Hj1.
    pose proof (sampleStep_inv i j x p idxs st Hinv Hi Hj ltac:(lia)) as Hstep.
    replace (i * 1024 + j + 1) with (i * 1024 + (j + 1)) in Hstep by lia.
    specialize (IH (j + 1) _ _ _ Hstep Hi ltac:(lia) ltac:(lia)).
    rewrite <- !app_assoc in IH. cbn [app] in IH.
    cbn [seq map]. rewrite <- seq_shift, map_map.
    replace (i * 1024 + (j + Z.of_nat 0)) with (i * 1024 + j) by lia.
    replace (i * 1024 + j + Z.of_nat (Datatypes.S (length rest)))
      with (i * 1024 + (j + 1) + Z.of_nat (length rest)) by lia.
    erewrite (map_ext (fun x0 : nat => i * 1024 + (j + Z.of_nat (Datatypes.S x0))));
      [exact IH|].
    intros k. cbv beta. lia.
Qed.

Section Scan.
Context {S : Type} `{StreamSeekerLaws S}.

Lemma detectLoop_step fuel (s : S) i st b ok s' :
  Stream s 1024 = (b, ok, s') ->
  detectLoop (Datatypes.S fuel) s i st
  = if negb ok || (length b =? 0)%nat then Some (st, s')
    else detectLoop fuel s' (int_add i 1) (scanBuffer i 0 b st).
Proof. intros E. cbn [detectLoop]. rewrite E. reflexivity. Qed.

Lemma drain_step fuel (s : S) b ok s' :
  Stream s 1024 = (b, ok, s') ->
  drain (Datatypes.S fuel) s
  = if negb ok || (length b =? 0)%nat then [] else b :: drain fuel s'.
Proof. intros E. cbn [drain]. rewrite E. reflexivity. Qed.

(** A call that lets a loop go on delivered between 1 and 1024 samples
    and brought the stream nearer to its end. *)
Lemma pull_continues (s : S) b ok s' :
  Stream s 1024 = (b, ok, s') ->
  negb ok || (length b =? 0)%nat = false ->
  ok = true /\ (1 <= length b <= 1024)%nat
  /\ 0 <= Len s' - Position s' < Len s - Position s.
Proof.
  intros E Hgo. apply orb_false_iff in Hgo as [Hok Hn].
  apply negb_false_iff in Hok. subst ok.
  apply Nat.eqb_neq in Hn.
  pose proof (Stream_fits _ _ _ _ _ E).
  assert (b <> []) by (destruct b; [cbn in Hn; lia | congruence]).
  pose proof (Stream_advances _ _ _ _ E ltac:(assumption)).
  repeat split; lia.
Qed.

(** The whole scan, entered at batch [i]. *)
Lemma detectLoop_inv (fuel : nat) :
  forall (s : S) (i : Z) st p idxs,
    ScanInv p idxs st (i * 1024) ->
    0 <= i ->
    (Z.to_nat (Len s - Position s) < fuel)%nat ->
    (i + Z.max 0 (Len s - Position s) + 1) * 1024 <= int_max ->
    exists st' s' hi,
      detectLoop fuel s i st = Some (st', s')
      /\ ScanInv (p ++ concat (drain fuel s))
           (idxs ++ batchIndexes i (drain fuel s)) st' hi.
Proof.
  induction fuel as [|fuel IH]; intros s i st p idxs Hinv Hi Hfuel Hmax.
  - lia.
  - destruct (Stream s 1024) as [[b ok] s'] eqn:E.
    rewrite (detectLoop_step _ _ _ _ _ _ _ E), (drain_step _ _ _ _ _ E).
    destruct (negb ok || (length b =? 0)%nat) eqn:Hgo.
    + exists st, s', (i * 1024). split; [reflexivity|].
      cbn [concat batchIndexes]. rewrite !app_nil_r. exact Hinv.
    + destruct (pull_continues _ _ _ _ E Hgo) as (-> & Hb & Hadv).
      assert (Hi1 : int_add i 1 = i + 1).
      { unfold int_add. apply wrap_small. int_range. }
      rewrite Hi1.
      replace (i * 1024) with (i * 1024 + 0) in Hinv by lia.
      pose proof (scanBuffer_inv i b 0 p idxs st Hinv Hi ltac:(lia)
                    ltac:(lia)) as Hbatch.
      apply ScanInv_weaken with (hi' := (i + 1) * 1024) in Hbatch; [|lia].
      destruct (IH s' (i + 1) _ _ _ Hbatch ltac:(lia) ltac:(lia) ltac:(lia))
        as (st' & s'' & hi & Hrun & Hfin).
      exists st', s'', hi. split; [exact Hrun|].
      cbn [concat batchIndexes]. rewrite !app_assoc.
      erewrite (map_ext (fun j : nat => i * 1024 + Z.of_nat j)); [exact Hfin|].
      intros k. cbv beta. lia.
Qed.

End Scan.

Section ScanResult.
Context {S : Type} `{StreamSeekerLaws S}.

(** The scan always reaches its [break]. *)
Lemma detectLoop_total (fuel : nat) :
  forall (s : S) (i : Z) st,
    (Z.to_nat (Len s - Position s) < fuel)%nat ->
    exists st' s', detectLoop fuel s i st = Some (st', s').
Proof.
  induction fuel as [|fuel IH]; intros s i st Hfuel; [lia|].
  destruct (Stream s 1024) as [[b ok] s'] eqn:E.
  rewrite (detectLoop_step _ _ _ _ _ _ _ E).
  destruct (negb ok || (length b =? 0)%nat) eqn:Hgo.
  - eauto.
  - destruct (pull_continues _ _ _ _ E Hgo) as (_ & _ & Hadv).
    apply IH. lia.
Qed.

(** What [detectLoopSegment] returns: the last two of the boundaries of
    the samples it was handed, under the indices it saw them at. *)
Lemma detectLoopSegment_spec (s : S) :
  scannable s ->
  exists a b s',
    detectLoopSegment s = Some (a, b, s')
    /\ (a, b) = lastTwo (recordedBoundaries (batches s))
    /\ 0 <= a <= b.
Proof.
  intros Hs. unfold scannable in Hs.
  assert (Hpow : 2 ^ 53 = 9007199254740992) by reflexivity.
  destruct (detectLoop_inv (fuelOf s) s 0 detectInit [] [] ScanInv_init
              ltac:(lia) ltac:(unfold fuelOf; lia)
              ltac:(unfold int_max; lia))
    as (st' & s' & hi & Hrun & Hinv).
  unfold detectLoopSegment. rewrite Hrun.
  exists (start st'), (end_ st'), s'. split; [reflexivity|].
  destruct Hinv as (_ & _ & Hpair & Hord & _ & _).
  cbn [app] in Hpair. split; [exact Hpair | exact Hord].
Qed.

End ScanResult.

(** ** The sample-slice stream *)

Lemma slice_pull_end (l : list sample) (p : Z) :
  Z.of_nat (length l) <= p ->
  Stream (mkSlice l p) 1024 = ([], false, mkSlice l p).
Proof.
  intros Hp. cbn [Stream SliceStream_StreamSeeker data pos].
  replace (Z.of_nat (length l) <=? p) with true by (symmetry; apply Z.leb_le; lia).
  rewrite orb_true_r. reflexivity.
Qed.

Lemma slice_pull (l : list sample) (p : Z) :
  0 <= p < Z.of_nat (length l) ->
  Stream (mkSlice l p) 1024
  = (take 1024 (drop (Z.to_nat p) l), true,
     mkSlice l (p + Z.of_nat (length (take 1024 (drop (Z.to_nat p) l))))).
Proof.
  intros Hp. cbn [Stream SliceStream_StreamSeeker data pos].
  replace (p <? 0) with false by (symmetry; apply Z.ltb_ge; lia).
  replace (Z.of_nat (length l) <=? p) with false
    by (symmetry; apply Z.leb_gt; lia).
  cbn [orb].
  replace (length (take 1024 (drop (Z.to_nat p) l)) =? 0)%nat with false;
    [reflexivity|].
  symmetry. apply Nat.eqb_neq. rewrite length_take, length_drop. lia.
Qed.

Lemma slice_drain_end (fuel : nat) (l : list sample) (p : Z) :
  Z.of_nat (length l) <= p -> drain fuel (mkSlice l p) = [].
Proof.
  intros Hp. destruct fuel; [reflexivity|].
  rewrite (drain_step _ _ _ _ _ (slice_pull_end l p Hp)). reflexivity.
Qed.

Lemma map_seq_from (f : nat -> Z) (b : nat) :
  forall a : nat, map f (seq a b) = map (fun k => f (a + k)%nat) (seq 0 b).
Proof.
  induction b as [|b IH]; intros a; [reflexivity|].
  cbn [seq map]. f_equal; [f_equal; lia|].
  rewrite IH, <- seq_shift, List.map_map.
  apply map_ext. intros k. f_equal. lia.
Qed.

Lemma seq_map_split (f : nat -> Z) (a b : nat) :
  map f (seq 0 (a + b))
  = map f (seq 0 a) ++ map (fun k => f (a + k)%nat) (seq 0 b).
Proof.
  rewrite seq_app, List.map_app. f_equal. cbn [Nat.add]. apply map_seq_from.
Qed.

(** Read from a batch boundary on, the slice comes in full batches (the
    last one excepted), so every sample is seen under its own index. *)
Lemma slice_drain (l : list sample) (fuel : nat) :
  forall (p i : Z),
    p = i * 1024 -> 0 <= i ->
    (Z.to_nat (Z.of_nat (length l) - p) < fuel)%nat ->
    concat (drain fuel (mkSlice l p)) = drop (Z.to_nat p) l
    /\ batchIndexes i (drain fuel (mkSlice l p))
       = map (fun k => p + Z.of_nat k)
           (seq 0 (length (drop (Z.to_nat p) l))).
Proof.
  induction fuel as [|fuel IH]; intros p i Hp Hi Hfuel; [lia|].
  destruct (Z.le_gt_cases (Z.of_nat (length l)) p) as [Hend|Hin].
  - rewrite slice_drain_end by exact Hend.
    rewrite drop_ge by lia. split; reflexivity.
  - rewrite (drain_step _ _ _ _ _ (slice_pull l p ltac:(lia))).
    cbn [negb orb].
    set (P := Z.to_nat p) in *.
    set (b := take 1024 (drop P l)) in *.
    assert (Hblen : length b = Nat.min 1024 (length l - P))
      by (subst b; rewrite length_take, length_drop; reflexivity).
    replace (length b =? 0)%nat with false
      by (symmetry; apply Nat.eqb_neq; lia).
    cbn [concat batchIndexes].
    destruct (Nat.lt_ge_cases (length l - P) 1024) as [Hshort|Hfull].
    + rewrite slice_drain_end by lia.
      cbn [concat batchIndexes]. rewrite !app_nil_r.
      assert (Hb : b = drop P l)
        by (subst b; apply take_ge; rewrite length_drop; lia).
      rewrite Hb. split; [reflexivity|].
      apply map_ext. intros k. lia.
    + destruct (IH (p + Z.of_nat (length b)) (i + 1) ltac:(lia) ltac:(lia)
                  ltac:(lia)) as [IHc IHi].
      replace (Z.to_nat (p + Z.of_nat (length b))) with (P + 1024)%nat
        in IHc, IHi by lia.
      rewrite IHc, IHi.
      assert (Hsplit : drop P l = b ++ drop (P + 1024) l).
      { subst b. rewrite <- drop_drop. symmetry. apply take_drop. }
      split; [symmetry; exact Hsplit|].
      rewrite Hsplit, length_app.
      rewrite (seq_map_split (fun k => p + Z.of_nat k)).
      f_equal.
      * apply map_ext. intros k. lia.
      * apply map_ext. intros k. lia.
Qed.

Lemma slice_batches (l : list sample) :
  concat (batches (newSliceStream l)) = l
  /\ batchIndexes 0 (batches (newSliceStream l))
     = map Z.of_nat (seq 0 (length l)).
Proof.
  unfold batches, newSliceStream.
  destruct (slice_drain l (fuelOf (mkSlice l 0)) 0 0 eq_refl ltac:(lia))
    as [Hc Hi].
  { unfold fuelOf. cbn [Len Position SliceStream_StreamSeeker data pos]. lia. }
  split; [exact Hc|]. rewrite Hi. cbn [Z.to_nat drop].
  apply map_ext. intros k. lia.
Qed.

(** On a slice the recorded boundaries are the boundaries themselves. *)
Lemma slice_recorded (l : list sample) :
  recordedBoundaries (batches (newSliceStream l)) = map Z.of_nat (boundaries l).
Proof.
  unfold recordedBoundaries.
  destruct (slice_batches l) as [-> ->].
  apply map_ext_in. intros k Hk. apply boundaries_lt in Hk.
  change 0 with (Z.of_nat 0). rewrite map_nth, seq_nth by exact Hk.
  reflexivity.
Qed.

Lemma slice_scannable (l : list sample) :
  Z.of_nat (length l) < 2 ^ 53 - 1 -> scannable (newSliceStream l).
Proof.
  unfold scannable, newSliceStream.
  cbn [Len Position SliceStream_StreamSeeker data pos]. lia.
Qed.

(** ** A stream whose reads fail *)

Section FaultyStream.
Context {S : Type} `{StreamSeeker S}.

Lemma faulty_drain (junk : list sample) (fuel : nat) :
  forall (s : S) (k : nat),
    drain fuel (mkFaulty s k junk) = take k (drain fuel s).
Proof.
  induction fuel as [|fuel IH]; intros s k.
  - destruct k; reflexivity.
  - destruct k as [|k].
    + cbn [drain Stream Faulty_StreamSeeker healthy]. reflexivity.
    + cbn [drain Stream Faulty_StreamSeeker healthy inner partial].
      destruct (Stream s 1024) as [[b ok] s'].
      destruct (negb ok || (length b =? 0)%nat); [reflexivity|].
      cbn [take]. rewrite IH. reflexivity.
Qed.

Lemma faulty_batches (s : S) (k : nat) (junk : list sample) :
  batches (mkFaulty s k junk) = take k (batches s).
Proof. unfold batches. apply faulty_drain. Qed.

End FaultyStream.

(** ** The longest silent run bounds every run *)

Lemma foldr_max_ge (l : list nat) (x : nat) :
  In x l -> (x <= foldr Nat.max O l)%nat.
Proof.
  induction l as [|y l IH]; cbn [In foldr]; [tauto|].
  intros [->|Hx]; [lia | specialize (IH Hx); lia].
Qed.

Lemma silentRunBefore_le_longest (l : list sample) (k : nat) :
  (k <= length l)%nat -> (silentRunBefore l k <= longestSilentRun l)%nat.
Proof.
  intros Hk. unfold silentRunBefore, longestSilentRun. cbv zeta.
  apply foldr_max_ge. apply in_map. apply in_seq.
  rewrite length_map. lia.
Qed.

Lemma no_long_run_no_boundary (l : list sample) :
  Z.of_nat (longestSilentRun l) <= silenceDuration -> boundaries l = [].
Proof.
  intros Hmax. destruct (boundaries l) as [|k ks] eqn:E; [reflexivity|].
  assert (Hk : In k (boundaries l)) by (rewrite E; left; reflexivity).
  pose proof (boundaries_lt _ _ Hk).
  pose proof (boundaries_run _ _ Hk).
  pose proof (silentRunBefore_le_longest l k ltac:(lia)).
  lia.
Qed.

(** * The claims about detectLoopSegment *)

(** C9: for every input stream the scan can index, the pair (start, end)
    that detectLoopSegment returns satisfies 0 <= start <= end. *)
Theorem C9_start_le_end {S : Type} `{StreamSeekerLaws S} (streamer : S) :
  scannable streamer ->
  exists a b streamer',
    detectLoopSegment streamer = Some (a, b, streamer') /\ 0 <= a <= b.
Proof.
  intros Hs.
  destruct (detectLoopSegment_spec streamer Hs) as (a & b & s' & Hrun & _ & Hord).
  exists a, b, s'. split; assumption.
Qed.

Lemma C9_witness :
  exists a b streamer',
    detectLoopSegment (newSliceStream threeRuns) = Some (a, b, streamer')
    /\ 0 <= a <= b.
Proof.
  apply (C9_start_le_end (newSliceStream threeRuns)).
  vm_compute. reflexivity.
Defined.

(** C5: for every stream in which no run of consecutive samples whose
    channel average is below the threshold is longer than silenceDuration,
    detectLoopSegment returns (0, 0). *)
Theorem C5_no_long_silence {S : Type} `{StreamSeekerLaws S} (streamer : S) :
  scannable streamer ->
  Z.of_nat (longestSilentRun (concat (batches streamer))) <= silenceDuration ->
  exists streamer', detectLoopSegment streamer = Some (0, 0, streamer').
Proof.
  intros Hs Hquiet.
  destruct (detectLoopSegment_spec streamer Hs) as (a & b & s' & Hrun & Hpair & _).
  unfold recordedBoundaries in Hpair.
  rewrite (no_long_run_no_boundary _ Hquiet) in Hpair.
  cbn [map] in Hpair. unfold lastTwo in Hpair. cbn [rev] in Hpair.
  injection Hpair as -> ->. exists s'. exact Hrun.
Qed.

Lemma C5_witness :
  exists streamer',
    detectLoopSegment (newSliceStream noRuns) = Some (0, 0, streamer').
Proof.
  apply (C5_no_long_silence (newSliceStream noRuns)).
  - vm_compute. reflexivity.
  - vm_compute. congruence.
Defined.

(** C3: whenever the scan meets three or more boundaries (ends of silent
    runs longer than silenceDuration that a non-silent sample follows),
    detectLoopSegment returns the last two of them: start is the boundary
    recorded at the end of the second-to-last run, end the boundary
    recorded at the end of the last run, and no earlier boundary has any
    influence. *)
Theorem C3_last_two_boundaries {S : Type} `{StreamSeekerLaws S}
    (streamer : S) (earlier : list Z) (b1 b2 : Z) :
  scannable streamer ->
  earlier <> [] ->
  recordedBoundaries (batches streamer) = earlier ++ [b1; b2] ->
  exists streamer', detectLoopSegment streamer = Some (b1, b2, streamer').
Proof.
  intros Hs _ Hbs.
  destruct (detectLoopSegment_spec streamer Hs) as (a & b & s' & Hrun & Hpair & _).
  rewrite Hbs in Hpair.
  change (earlier ++ [b1; b2]) with (earlier ++ [b1] ++ [b2]) in Hpair.
  rewrite app_assoc, !lastTwo_snoc in Hpair. cbn [snd] in Hpair.
  injection Hpair as -> ->. exists s'. exact Hrun.
Qed.

Lemma C3_witness :
  exists streamer',
    detectLoopSegment (newSliceStream threeRuns)
    = Some (8824, 13236, streamer').
Proof.
  apply (C3_last_two_boundaries (newSliceStream threeRuns) [4411] 8824 13236).
  - vm_compute. reflexivity.
  - discriminate.
  - vm_compute. reflexivity.
Defined.




Lemma faulty_scannable {S : Type} `{StreamSeeker S}
    (s : S) (k : nat) (junk : list sample) :
  scannable s -> scannable (mkFaulty s k junk).
Proof. intros Hs. exact Hs. Qed.

(** C8: detectLoopSegment returns a pair, and no error, on every stream.
    A call to the stream that reports not ok ends the scan on the spot,
    whatever it delivered, exactly as a call that delivers nothing does;
    and on a stream whose reads fail after [k] calls the result is made of
    the boundaries of the [k] batches read before, the same as on any
    stream that simply ends after those batches. *)
Theorem C8_read_failure_ends_scan {S : Type} `{StreamSeekerLaws S}
    (streamer : S) (k : nat) (junk : list sample) :
  (exists r, detectLoopSegment streamer = Some r)
  /\ (forall fuel i st b streamer',
        Stream streamer 1024 = (b, false, streamer') ->
        detectLoop (Datatypes.S fuel) streamer i st = Some (st, streamer'))
  /\ (forall fuel i st ok streamer',
        Stream streamer 1024 = ([], ok, streamer') ->
        detectLoop (Datatypes.S fuel) streamer i st = Some (st, streamer'))
  /\ (scannable streamer ->
      exists a b,
        (exists f', detectLoopSegment (mkFaulty streamer k junk)
                    = Some (a, b, f'))
        /\ (a, b) = lastTwo (recordedBoundaries (take k (batches streamer)))
        /\ forall (T : Type) (HT : StreamSeeker T)
                  (HL : StreamSeekerLaws T) (t : T),
             scannable t ->
             batches t = take k (batches streamer) ->
             exists t', detectLoopSegment t = Some (a, b, t')).
Proof.
  split; [|split; [|split]].
  - destruct (detectLoop_total (fuelOf streamer) streamer 0 detectInit
                ltac:(unfold fuelOf; lia)) as (st' & s' & Hrun).
    unfold detectLoopSegment. rewrite Hrun. eauto.
  - intros fuel i st b s' E.
    rewrite (detectLoop_step _ _ _ _ _ _ _ E). reflexivity.
  - intros fuel i st ok s' E.
    rewrite (detectLoop_step _ _ _ _ _ _ _ E). cbn [length Nat.eqb].
    rewrite orb_true_r. reflexivity.
  - intros Hs.
    destruct (detectLoopSegment_spec (mkFaulty streamer k junk)
                (faulty_scannable streamer k junk Hs))
      as (a & b & f' & Hrun & Hpair & _).
    rewrite faulty_batches in Hpair.
    exists a, b. split; [eauto|]. split; [exact Hpair|].
    intros T HT HL t Ht Hsame.
    destruct (detectLoopSegment_spec t Ht) as (a' & b' & t' & Hrun' & Hpair' & _).
    rewrite Hsame, <- Hpair in Hpair'. injection Hpair' as -> ->.
    exists t'. exact Hrun'.
Qed.

Lemma C8_witness :
  exists f' t',
    detectLoopSegment (mkFaulty (newSliceStream twoRuns) 5 [loud])
    = Some (0, 4412, f')
    /\ detectLoopSegment (newSliceStream (take (5 * 1024) twoRuns))
       = Some (0, 4412, t').
Proof.
  destruct (C8_read_failure_ends_scan (newSliceStream twoRuns) 5 [loud])
    as (_ & _ & _ & Hfaulty).
  destruct Hfaulty as (a & b & [f' Hrun] & Hpair & Hsame).
  { vm_compute. reflexivity. }
  destruct (Hsame SliceStream _ _ (newSliceStream (take (5 * 1024) twoRuns)))
    as [t' Hrun'].
  { vm_compute. reflexivity. }
  { vm_compute. reflexivity. }
  vm_compute in Hpair. injection Hpair as -> ->.
  exists f', t'. split; assumption.
Defined.

(** C4, as the program has it: the silence duration that the scan uses is
    the constant 44100 / 10 = 4410 samples whatever the sample rate of the
    stream's format; it is a tenth of the sample rate exactly for the rates
    44100 to 44109, and it alone decides whether a non-silent sample closes
    a run as a boundary. *)
Theorem C4_fixed_silence_duration (format : Format) :
  silenceDuration = 4410
  /\ (silenceDuration = SampleRate format / 10
      <-> 44100 <= SampleRate format < 44110)
  /\ forall i j x st,
       silent x = false ->
       (start (sampleStep i j x st), end_ (sampleStep i j x st))
       = if 4410 <? silenceCount st
         then (end_ st, int_add (int_mul i 1024) j)
         else (start st, end_ st).
Proof.
  split; [reflexivity|]. split.
  - change silenceDuration with 4410. split; intros Hsr.
    + pose proof (Z.div_mod (SampleRate format) 10 ltac:(lia)).
      pose proof (Z.mod_pos_bound (SampleRate format) 10 ltac:(lia)). lia.
    + apply Z.div_unique with (r := SampleRate format - 44100); lia.
  - intros i j x st Hloud. unfold sampleStep. fold (silent x). rewrite Hloud.
    change silenceDuration with 4410.
    destruct (4410 <? silenceCount st); reflexivity.
Qed.

Lemma C4_witness :
  silenceDuration = SampleRate fmt44k / 10
  /\ (start (sampleStep 4 315 loud (mkDetect 0 0 4411)),
      end_ (sampleStep 4 315 loud (mkDetect 0 0 4411)))
     = (0, 4411).
Proof.
  destruct (C4_fixed_silence_duration fmt44k) as (_ & Hrate & Hstep).
  split.
  - apply Hrate. cbn. lia.
  - rewrite (Hstep 4 315 loud (mkDetect 0 0 4411)).
    + vm_compute. reflexivity.
    + vm_compute. reflexivity.
Defined.

(** C4 as stated fails: at 48000 Hz a tenth of the sample rate is 4800
    samples, yet the scan works with 4410, and takes a silent run of 4411
    samples (the whole stream is shorter than 100 ms at that rate) for a
    boundary. *)
Lemma C4_counterexample :
  ~ (forall format : Format, silenceDuration = SampleRate format / 10)
  /\ silenceDuration <> SampleRate fmt48k / 10
  /\ Z.of_nat (length longRun) < SampleRate fmt48k / 10
  /\ exists streamer',
       detectLoopSegment (newSliceStream longRun) = Some (0, 4411, streamer').
Proof.
  split; [|split; [|split]].
  - intros Hall. specialize (Hall fmt48k). vm_compute in Hall. discriminate.
  - vm_compute. discriminate.
  - vm_compute. reflexivity.
  - eexists. vm_compute. reflexivity.
Qed.

(** ** The scan counts by the signed average *)

(** A non-silent sample leaves the counter at 0, whatever came before it
    in the batch. *)
Lemma scanBuffer_resets (y : sample) (xs : list sample) :
  f64_lt (amp y) f64_0_001 = false ->
  forall i j st, silenceCount (scanBuffer i j (xs ++ [y]) st) = 0.
Proof.
  intros Hy. induction xs as [|x xs IH]; intros i j st.
  - cbn [app scanBuffer]. unfold sampleStep, threshold. rewrite Hy.
    reflexivity.
  - cbn [app scanBuffer]. apply IH.
Qed.

(** Samples that are silent only add to the counter. *)
Lemma scanBuffer_counts (xs : list sample) :
  Forall (fun x => silent x = true) xs ->
  forall i j st,
    0 <= silenceCount st <= int_max - Z.of_nat (length xs) ->
    scanBuffer i j xs st
    = mkDetect (start st) (end_ st) (silenceCount st + Z.of_nat (length xs)).
Proof.
  induction 1 as [|x xs Hx _ IH]; intros i j st Hc.
  - cbn [scanBuffer length]. destruct st as [a b c]. cbn [start end_ silenceCount].
    f_equal. lia.
  - cbn [length] in Hc. cbn [scanBuffer]. rewrite IH.
    + unfold sampleStep. unfold silent in Hx. rewrite Hx.
      cbn [start end_ silenceCount]. unfold int_add.
      rewrite wrap_small by int_range. cbn [length]. f_equal. lia.
    + unfold sampleStep. unfold silent in Hx. rewrite Hx.
      cbn [silenceCount]. unfold int_add.
      rewrite wrap_small by int_range. lia.
Qed.

(** A run of nothing but silent samples holds no boundary. *)
Lemma boundaries_all_silent (xs : list sample) :
  Forall (fun x => silent x = true) xs ->
  boundaries xs = []
  /\ leadingTrue (reverse (map silent xs)) = length xs.
Proof.
  induction xs as [|x xs IH] using rev_ind; intros Hall.
  - split; reflexivity.
  - apply Forall_app in Hall as [Hxs Hx]. inversion Hx as [|? ? Hsx _]; subst.
    destruct (IH Hxs) as [Hb Hl].
    rewrite boundaries_snoc, Hsx, Hb. split; [reflexivity|].
    rewrite map_app. cbn [map]. rewrite leadingTrue_snoc, Hsx, Hl.
    rewrite length_app. cbn [length]. lia.
Qed.

Lemma signed_low_silent (x : sample) :
  f64_lt (amp x) f64_zero = true \/ (exists s, amp x = S754_zero s) ->
  silent x = true.
Proof.
  intros [Hneg|[s Hzero]]; unfold silent.
  - apply negative_below_threshold. exact Hneg.
  - rewrite Hzero. apply zero_below_threshold.
Qed.

(** C10: the scan classifies every sample by the signed average of its
    two channels, (left + right) / 2, compared with 0.001; no absolute
    value is taken.  In the loop over a batch each sample whose average
    compares below 0.001 adds one to the silence counter and each other
    sample resets it.  So samples with a negative or cancelling average,
    however loud their channels, among them (-1.0, -1.0), (1.0, -1.0) and
    every pair of opposite finite values, only add to the counter, and
    detectLoopSegment takes a stretch of more than silenceDuration of
    them, once a sample at or above the threshold ends it, for a silent
    run: it returns the index of that sample as end. *)
Theorem C10_signed_average_decides_silence (xs : list sample) (y : sample) :
  Forall (fun x => f64_lt (amp x) f64_zero = true
                   \/ exists s, amp x = S754_zero s) xs ->
  f64_lt (amp y) f64_0_001 = false ->
  Z.of_nat (length xs) < 2 ^ 53 - 2 ->
  (forall i j x st,
     silenceCount (sampleStep i j x st)
     = if f64_lt (f64_div (f64_add (fst x) (snd x)) (f64_of_Z 2)) f64_0_001
       then int_add (silenceCount st) 1 else 0)
  /\ (forall i j st,
        0 <= silenceCount st <= int_max - Z.of_nat (length xs) ->
        scanBuffer i j xs st
        = mkDetect (start st) (end_ st)
            (silenceCount st + Z.of_nat (length xs)))
  /\ (forall i j st, silenceCount (scanBuffer i j (xs ++ [y]) st) = 0)
  /\ (exists streamer',
        detectLoopSegment (newSliceStream (xs ++ [y]))
        = Some (0,
                (if silenceDuration <? Z.of_nat (length xs)
                 then Z.of_nat (length xs) else 0),
                streamer'))
  /\ f64_lt (amp (f64_minus_one, f64_minus_one)) f64_zero = true
  /\ amp (f64_one, f64_minus_one) = S754_zero false
  /\ (forall s m e,
        amp (S754_finite s m e, S754_finite (negb s) m e) = S754_zero false).
Proof.
  intros Hlow Hy Hlen.
  assert (Hsil : Forall (fun x => silent x = true) xs).
  { eapply Forall_impl; [exact Hlow|]. intros x Hx.
    apply signed_low_silent. exact Hx. }
  split; [|split; [|split; [|split; [|split; [|split]]]]].
  - intros i j x st. unfold sampleStep, amp, threshold.
    destruct (f64_lt (f64_div (f64_add (fst x) (snd x)) (f64_of_Z 2))
                f64_0_001); [reflexivity|].
    destruct (silenceDuration <? silenceCount st); reflexivity.
  - apply scanBuffer_counts. exact Hsil.
  - apply scanBuffer_resets. exact Hy.
  - assert (Hlen' : Z.of_nat (length (xs ++ [y])) < 2 ^ 53 - 1).
    { rewrite length_app. cbn [length]. lia. }
    destruct (detectLoopSegment_spec (newSliceStream (xs ++ [y]))
                (slice_scannable _ Hlen'))
      as (a & b & s' & Hrun & Hpair & _).
    rewrite slice_recorded, boundaries_snoc in Hpair.
    destruct (boundaries_all_silent xs Hsil) as [Hb Hl].
    rewrite Hb, Hl in Hpair. unfold silent, threshold in Hpair.
    rewrite Hy in Hpair. cbn [negb andb app] in Hpair.
    exists s'. rewrite Hrun.
    destruct (silenceDuration <? Z.of_nat (length xs));
      cbn in Hpair; injection Hpair as -> ->; reflexivity.
  - vm_compute. reflexivity.
  - vm_compute. reflexivity.
  - apply amp_opposite.
Qed.

Lemma C10_witness :
  exists streamer',
    detectLoopSegment
      (newSliceStream
         ((replicate 2206 (f64_minus_one, f64_minus_one)
           ++ replicate 2205 (f64_one, f64_minus_one)) ++ [loud]))
    = Some (0, 4411, streamer').
Proof.
  destruct (C10_signed_average_decides_silence
              (replicate 2206 (f64_minus_one, f64_minus_one)
               ++ replicate 2205 (f64_one, f64_minus_one)) loud)
    as (_ & _ & _ & [streamer' Hrun] & _).
  - apply Forall_app. split; apply Forall_replicate.
    + left. vm_compute. reflexivity.
    + right. exists false. vm_compute. reflexivity.
  - vm_compute. reflexivity.
  - rewrite length_app, !length_replicate. vm_compute. reflexivity.
  - rewrite length_app, !length_replicate in Hrun.
    exists streamer'. exact Hrun.
Defined.

(** * playAudioSegment and seamlessLoop *)

Section Play.
Context {S : Type} `{StreamSeeker S}.

Lemma playLoop_done fuel player (s : S) segmentLength samplesPlayed :
  segmentLength <= samplesPlayed ->
  playLoop fuel player s segmentLength samplesPlayed = Some (player, s).
Proof.
  intros Hdone.
  destruct fuel; cbn [playLoop];
    (replace (samplesPlayed <? segmentLength) with false
       by (symmetry; apply Z.ltb_ge; lia)); reflexivity.
Qed.

Lemma playLoop_step fuel player (s : S) segmentLength samplesPlayed
    b ok s' :
  samplesPlayed < segmentLength ->
  Stream s 1024 = (b, ok, s') ->
  playLoop (Datatypes.S fuel) player s segmentLength samplesPlayed
  = if negb ok || (length b =? 0)%nat then Some (player, s')
    else playLoop fuel (Write player (encodeBuffer b)) s' segmentLength
           (int_add samplesPlayed (Z.of_nat (length b))).
Proof.
  intros Hgo E. cbn [playLoop].
  replace (samplesPlayed <? segmentLength) with true
    by (symmetry; apply Z.ltb_lt; lia).
  rewrite E. reflexivity.
Qed.

(** When the first call after the seek delivers nothing, or nothing is
    asked for, nothing is written. *)
Lemma playAudioSegment_nothing player (s : S) segmentLength format :
  fst (fst (Stream s 1024)) = [] \/ segmentLength <= 0 ->
  exists s', playAudioSegment player s segmentLength format
             = Some (player, s').
Proof.
  intros Hcase. unfold playAudioSegment, fuelOf.
  destruct (Z.le_gt_cases segmentLength 0) as [Hle|Hgt].
  - rewrite playLoop_done by exact Hle. eauto.
  - destruct Hcase as [Hempty|Hle]; [|lia].
    destruct (Stream s 1024) as [[b ok] s'] eqn:E. cbn [fst] in Hempty.
    subst b. rewrite (playLoop_step _ _ _ _ _ _ _ _ Hgt E).
    cbn [length Nat.eqb]. rewrite orb_true_r. eauto.
Qed.

End Play.

Lemma int_sub_diag (a : Z) : int_sub a a = 0.
Proof. unfold int_sub. rewrite Z.sub_diag. reflexivity. Qed.

(** Past the end of a slice an iteration only moves the cursor. *)
Lemma slice_body_end player (l : list sample) (p start end_ : Z) format :
  Z.of_nat (length l) <= start ->
  seamlessLoopBody player (mkSlice l p) start end_ format
  = Some (player, mkSlice l start).
Proof.
  intros Hstart. unfold seamlessLoopBody.
  cbn [Seek SliceStream_StreamSeeker data].
  replace (start <? 0) with false by (symmetry; apply Z.ltb_ge; lia).
  unfold playAudioSegment, fuelOf.
  destruct (Z.le_gt_cases (int_sub end_ start) 0) as [Hle|Hgt].
  - apply playLoop_done. exact Hle.
  - rewrite (playLoop_step _ _ _ _ _ _ _ _ Hgt
               (slice_pull_end l start Hstart)).
    reflexivity.
Qed.

(** With at most one batch left between [start] and the end of the slice,
    an iteration writes all of it in one buffer, wherever [end_] lies. *)
Lemma slice_body_short player (l : list sample) (p start end_ : Z) format :
  0 <= start < Z.of_nat (length l) ->
  Z.of_nat (length l) <= start + 1024 ->
  start < end_ <= int_max ->
  seamlessLoopBody player (mkSlice l p) start end_ format
  = Some (player ++ [encodeBuffer (drop (Z.to_nat start) l)],
          mkSlice l (Z.of_nat (length l))).
Proof.
  intros Hstart Hshort Hend. unfold seamlessLoopBody.
  cbn [Seek SliceStream_StreamSeeker data].
  replace (start <? 0) with false by (symmetry; apply Z.ltb_ge; lia).
  assert (Hseg : int_sub end_ start = end_ - start).
  { unfold int_sub. apply wrap_small. int_range. }
  unfold playAudioSegment. rewrite Hseg.
  assert (Hfuel : fuelOf (mkSlice l start)
                  = Datatypes.S (Datatypes.S
                      (Nat.pred (Z.to_nat (Z.of_nat (length l) - start))))).
  { unfold fuelOf. cbn [Len Position SliceStream_StreamSeeker data pos]. lia. }
  rewrite Hfuel.
  assert (Hpos : 0 < end_ - start) by lia.
  rewrite (playLoop_step _ _ _ _ _ _ _ _ Hpos (slice_pull l start Hstart)).
  assert (Hb : take 1024 (drop (Z.to_nat start) l) = drop (Z.to_nat start) l)
    by (apply take_ge; rewrite length_drop; lia).
  rewrite Hb.
  assert (Hlen : Z.of_nat (length (drop (Z.to_nat start) l))
                 = Z.of_nat (length l) - start)
    by (rewrite length_drop; lia).
  replace (length (drop (Z.to_nat start) l) =? 0)%nat with false
    by (symmetry; apply Nat.eqb_neq; lia).
  cbn [negb orb]. rewrite Hlen.
  replace (start + (Z.of_nat (length l) - start)) with (Z.of_nat (length l))
    by lia.
  assert (Hplayed : int_add 0 (Z.of_nat (length l) - start)
                    = Z.of_nat (length l) - start).
  { unfold int_add. apply wrap_small. int_range. }
  rewrite Hplayed. unfold Write.
  destruct (Z.le_gt_cases (end_ - start) (Z.of_nat (length l) - start))
    as [Hle|Hgt].
  - apply playLoop_done. exact Hle.
  - rewrite (playLoop_step _ _ _ _ _ _ _ _ Hgt
               (slice_pull_end l (Z.of_nat (length l)) (Z.le_refl _))).
    reflexivity.
Qed.

(** C7: an iteration of the play loop whose first call after seeking to
    start delivers no samples writes nothing and still completes; so does
    every iteration when start = end; and on a stream of samples whose
    length start has reached or passed, as with start = 1000000 and
    end = 1000010 on 100 samples, every iteration writes nothing: the loop
    only seeks again. *)
Theorem C7_nothing_to_play {S : Type} `{StreamSeeker S}
    (player : Player) (originalStreamer : S) (start end_ : Z)
    (format : Format) :
  (fst (fst (Stream (snd (Seek originalStreamer start)) 1024)) = [] ->
   exists streamer',
     seamlessLoopBody player originalStreamer start end_ format
     = Some (player, streamer'))
  /\ (forall iters, exists streamer',
        seamlessLoop iters player originalStreamer start start format
        = Some (player, streamer'))
  /\ (forall (l : list sample) (p : Z) (iters : nat),
        Z.of_nat (length l) <= start ->
        exists streamer',
          seamlessLoop iters player (mkSlice l p) start end_ format
          = Some (player, streamer')).
Proof.
  split; [|split].
  - intros Hempty. unfold seamlessLoopBody.
    destruct (Seek originalStreamer start) as [e s1]. cbn [snd] in Hempty.
    apply playAudioSegment_nothing. left. exact Hempty.
  - intros iters. revert originalStreamer.
    induction iters as [|iters IH]; intros s; cbn [seamlessLoop]; [eauto|].
    unfold seamlessLoopBody. destruct (Seek s start) as [e s1].
    destruct (playAudioSegment_nothing player s1 (int_sub start start) format)
      as [s' Hrun].
    { right. rewrite int_sub_diag. lia. }
    rewrite Hrun. apply IH.
  - intros l p iters Hstart. revert p.
    induction iters as [|iters IH]; intros p; cbn [seamlessLoop]; [eauto|].
    rewrite slice_body_end by exact Hstart. apply IH.
Qed.

Lemma C7_witness :
  (exists streamer',
     seamlessLoopBody [] (newSliceStream hundredSamples) 1000000 1000010 fmt44k
     = Some ([], streamer'))
  /\ (exists streamer',
        seamlessLoop 3 [] (newSliceStream hundredSamples) 1000000 1000010
          fmt44k
        = Some ([], streamer')).
Proof.
  destruct (C7_nothing_to_play [] (newSliceStream hundredSamples)
              1000000 1000010 fmt44k) as (Hbody & _ & Hloop).
  split.
  - apply Hbody. vm_compute. reflexivity.
  - apply (Hloop hundredSamples 0 3%nat). vm_compute. congruence.
Defined.

(** C1, what the program does instead: it hands every batch it pulls to
    the player whole.  With at most one batch between start and the end of
    the samples, each iteration writes all the samples from start to the
    end of the stream in one buffer, four bytes a sample, wherever end
    lies beyond start; with start = 2 and end = 5 on ten samples that is 8
    samples, 32 bytes, an iteration and not 3 samples, 12 bytes. *)
Theorem C1_whole_batches_written
    (player : Player) (l : list sample) (p start end_ : Z) (format : Format)
    (iters : nat) :
  0 <= start < Z.of_nat (length l) ->
  Z.of_nat (length l) <= start + 1024 ->
  start < end_ <= int_max ->
  (exists streamer',
     seamlessLoop iters player (mkSlice l p) start end_ format
     = Some (player
             ++ replicate iters (encodeBuffer (drop (Z.to_nat start) l)),
             streamer'))
  /\ Z.of_nat (length (encodeBuffer (drop (Z.to_nat start) l)))
     = 4 * (Z.of_nat (length l) - start).
Proof.
  intros Hstart Hshort Hend. split.
  - revert player p.
    induction iters as [|iters IH]; intros player p; cbn [seamlessLoop].
    + cbn [replicate]. rewrite app_nil_r. eauto.
    + rewrite slice_body_short by assumption.
      destruct (IH (player ++ [encodeBuffer (drop (Z.to_nat start) l)])
                  (Z.of_nat (length l))) as [s' Hrun].
      exists s'. rewrite Hrun. cbn [replicate].
      rewrite <- app_assoc. reflexivity.
  - rewrite encodeBuffer_length, length_drop. lia.
Qed.

Lemma C1_witness :
  (exists streamer',
     seamlessLoop 3 [] (newSliceStream tenSamples) 2 5 fmt44k
     = Some (replicate 3 (encodeBuffer (drop 2 tenSamples)), streamer'))
  /\ Z.of_nat (length (encodeBuffer (drop 2 tenSamples))) = 32
  /\ 4 * (5 - 2) = 12.
Proof.
  destruct (C1_whole_batches_written [] tenSamples 0 2 5 fmt44k 3)
    as [Hrun Hlen].
  - vm_compute. split; congruence.
  - vm_compute. congruence.
  - vm_compute. split; congruence.
  - split; [exact Hrun|]. split; [exact Hlen | reflexivity].
Defined.

(** The same by running the program: three iterations with start = 2 and
    end = 5 on ten samples write three buffers of 32 bytes each. *)
Lemma C1_failing_run :
  exists player streamer',
    seamlessLoop 3 [] (newSliceStream tenSamples) 2 5 fmt44k
    = Some (player, streamer')
    /\ map (fun buf => Z.of_nat (length buf)) player = [32; 32; 32]
    /\ 32 <> 4 * (5 - 2).
Proof.
  eexists. eexists. split; [vm_compute; reflexivity|].
  split; [vm_compute; reflexivity | lia].
Qed.

(** * More about playAudioSegment and seamlessLoop *)

Lemma encodeBuffer_app (a b : list sample) :
  encodeBuffer (a ++ b) = encodeBuffer a ++ encodeBuffer b.
Proof. rewrite !encodeBuffer_flat. apply flat_map_app. Qed.

Lemma wholeBatches_nonpos (n : Z) : n <= 0 -> wholeBatches n = 0.
Proof.
  intros Hn. unfold wholeBatches.
  replace (n <=? 0) with true by (symmetry; apply Z.leb_le; lia). reflexivity.
Qed.

Lemma wholeBatches_pos (n : Z) :
  0 < n -> n <= wholeBatches n < n + 1024 /\ 1024 <= wholeBatches n.
Proof.
  intros Hn. unfold wholeBatches.
  replace (n <=? 0) with false by (symmetry; apply Z.leb_gt; lia).
  pose proof (Z.div_mod (n + 1023) 1024 ltac:(lia)).
  pose proof (Z.mod_pos_bound (n + 1023) 1024 ltac:(lia)).
  assert (1 <= (n + 1023) / 1024) by (apply Z.div_le_lower_bound; lia).
  lia.
Qed.

Lemma wholeBatches_step (n : Z) :
  0 < n -> wholeBatches n = 1024 + wholeBatches (n - 1024).
Proof.
  intros Hn. unfold wholeBatches.
  replace (n <=? 0) with false by (symmetry; apply Z.leb_gt; lia).
  replace (n + 1023) with (n - 1 + 1 * 1024) by lia.
  rewrite Z.div_add by lia.
  destruct (n - 1024 <=? 0) eqn:E.
  - apply Z.leb_le in E. rewrite Z.div_small by lia. lia.
  - apply Z.leb_gt in E.
    replace (n - 1024 + 1023) with (n - 1) by lia. lia.
Qed.

Lemma wholeSamples_encode (b : list sample) :
  (1 <= length b <= 1024)%nat -> wholeSamples (encodeBuffer b).
Proof.
  intros Hb. unfold wholeSamples. rewrite encodeBuffer_length.
  split; [lia|]. rewrite Nat.mul_comm. apply Nat.Div0.mod_mul.
Qed.

(** The inner loop on a slice, entered with [samplesPlayed] samples
    counted: it writes, batch by batch, the samples from the cursor on
    that whole batches covering the rest of the segment take in. *)
Lemma playLoop_slice (l : list sample) (segmentLength : Z) (fuel : nat) :
  forall (p samplesPlayed : Z) (player : Player),
    0 <= p -> 0 <= samplesPlayed ->
    segmentLength <= int_max - 1024 ->
    (Z.to_nat (Z.of_nat (length l) - p) < fuel)%nat ->
    exists (w : list (list byte)) (p' : Z),
      playLoop fuel player (mkSlice l p) segmentLength samplesPlayed
      = Some (player ++ w, mkSlice l p')
      /\ concat w
         = encodeBuffer
             (take (Z.to_nat (wholeBatches (segmentLength - samplesPlayed)))
                (drop (Z.to_nat p) l))
      /\ Forall wholeSamples w.
Proof.
  induction fuel as [|fuel IH]; intros p played player Hp Hplayed Hseg Hfuel;
    [lia|].
  destruct (Z.le_gt_cases segmentLength played) as [Hdone|Hgo].
  { exists [], p. rewrite playLoop_done by exact Hdone.
    rewrite app_nil_r, wholeBatches_nonpos by lia.
    split; [reflexivity|]. split; [reflexivity | constructor]. }
  destruct (Z.le_gt_cases (Z.of_nat (length l)) p) as [Hend|Hin].
  { exists [], p.
    rewrite (playLoop_step _ _ _ _ _ _ _ _ Hgo (slice_pull_end l p Hend)).
    cbn [negb orb]. rewrite app_nil_r, drop_ge by lia.
    rewrite take_nil. split; [reflexivity|]. split; [reflexivity | constructor]. }
  rewrite (playLoop_step _ _ _ _ _ _ _ _ Hgo (slice_pull l p ltac:(lia))).
  set (P := Z.to_nat p) in *.
  set (b := take 1024 (drop P l)) in *.
  assert (Hblen : length b = Nat.min 1024 (length l - P))
    by (subst b; rewrite length_take, length_drop; reflexivity).
  replace (length b =? 0)%nat with false
    by (symmetry; apply Nat.eqb_neq; lia).
  cbn [negb orb].
  assert (Hadd : int_add played (Z.of_nat (length b))
                 = played + Z.of_nat (length b)).
  { unfold int_add. apply wrap_small. int_range. }
  rewrite Hadd.
  destruct (IH (p + Z.of_nat (length b)) (played + Z.of_nat (length b))
              (Write player (encodeBuffer b)) ltac:(lia) ltac:(lia) Hseg
              ltac:(lia)) as (w & p' & Hrun & Hbytes & Hwf).
  exists (encodeBuffer b :: w), p'. rewrite Hrun. unfold Write.
  split; [rewrite <- app_assoc; reflexivity|]. split.
  - cbn [concat]. rewrite Hbytes, <- encodeBuffer_app. f_equal.
    replace (Z.to_nat (p + Z.of_nat (length b))) with (P + length b)%nat by lia.
    rewrite <- drop_drop.
    pose proof (wholeBatches_pos (segmentLength - played) ltac:(lia)) as Hwb.
    destruct (Nat.lt_ge_cases (length l - P) 1024) as [Hshort|Hfull].
    + assert (Hb : b = drop P l)
        by (subst b; apply take_ge; rewrite length_drop; lia).
      rewrite Hb, drop_all, take_nil, app_nil_r.
      symmetry. apply take_ge. rewrite length_drop. lia.
    + replace (length b) with 1024%nat by lia.
      rewrite (wholeBatches_step (segmentLength - played)) by lia.
      replace (segmentLength - (played + Z.of_nat 1024))
        with (segmentLength - played - 1024) by lia.
      pose proof (wholeBatches_nonpos (segmentLength - played - 1024)).
      pose proof (wholeBatches_pos (segmentLength - played - 1024)).
      replace (Z.to_nat (1024 + wholeBatches (segmentLength - played - 1024)))
        with (1024 + Z.to_nat (wholeBatches (segmentLength - played - 1024)))%nat
        by lia.
      subst b. apply take_take_drop.
  - constructor; [|exact Hwf]. apply wholeSamples_encode. lia.
Qed.

(** playAudioSegment on a slice of samples, from the cursor on. *)
Lemma slice_play
    (player : Player) (l : list sample) (p segmentLength : Z)
    (format : Format) :
  0 <= p ->
  segmentLength <= int_max - 1024 ->
  exists (w : list (list byte)) (p' : Z),
    playAudioSegment player (mkSlice l p) segmentLength format
    = Some (player ++ w, mkSlice l p')
    /\ concat w
       = encodeBuffer
           (take (Z.to_nat (wholeBatches segmentLength))
              (drop (Z.to_nat p) l))
    /\ Forall wholeSamples w.
Proof.
  intros Hp Hseg. unfold playAudioSegment.
  destruct (playLoop_slice l segmentLength (fuelOf (mkSlice l p))
              p 0 player Hp ltac:(lia) Hseg)
    as (w & p' & Hrun & Hbytes & Hwf).
  { unfold fuelOf. cbn [Len Position SliceStream_StreamSeeker data pos]. lia. }
  exists w, p'. rewrite Z.sub_0_r in Hbytes.
  split; [exact Hrun|]. split; [exact Hbytes | exact Hwf].
Qed.

Lemma slice_seek (l : list sample) (p start : Z) :
  0 <= start -> Seek (mkSlice l p) start = (None, mkSlice l start).
Proof.
  intros Hstart. cbn [Seek SliceStream_StreamSeeker data].
  replace (start <? 0) with false by (symmetry; apply Z.ltb_ge; lia).
  reflexivity.
Qed.

(** X1: one pass of the play loop over a slice of samples, from any cursor
    position: it writes exactly the PCM bytes of the samples from [start]
    on that whole 1024-sample batches covering [end_ - start] samples take
    in (fewer when the samples run out first, none when [end_ <= start]),
    in buffers of whole samples, and leaves what was written before
    untouched. *)
Theorem pass_plays_whole_batches
    (player : Player) (l : list sample) (p start end_ : Z) (format : Format) :
  0 <= start <= int_max ->
  0 <= end_ <= int_max - 1024 ->
  exists (w : list (list byte)) (p' : Z),
    seamlessLoopBody player (mkSlice l p) start end_ format
    = Some (player ++ w, mkSlice l p')
    /\ concat w = encodeBuffer (passSamples l start end_)
    /\ Forall wholeSamples w.
Proof.
  intros Hstart Hend. unfold seamlessLoopBody.
  rewrite slice_seek by lia.
  assert (Hseg : int_sub end_ start = end_ - start).
  { unfold int_sub. apply wrap_small. int_range. }
  rewrite Hseg.
  exact (slice_play player l start (end_ - start) format ltac:(lia) ltac:(lia)).
Qed.

Lemma pass_plays_whole_batches_witness :
  exists (w : list (list byte)) (p' : Z),
    seamlessLoopBody [] (newSliceStream tenSamples) 2 5 fmt44k
    = Some ([] ++ w, mkSlice tenSamples p')
    /\ concat w = encodeBuffer (passSamples tenSamples 2 5)
    /\ Forall wholeSamples w.
Proof.
  apply (pass_plays_whole_batches [] tenSamples 0 2 5 fmt44k).
  - vm_compute. split; congruence.
  - vm_compute. split; congruence.
Defined.

(** Any number of passes over a slice of samples, pass by pass: [ws]
    holds what each pass wrote. *)
Lemma slice_loop
    (l : list sample) (start end_ : Z) (format : Format) (iters : nat) :
  0 <= start <= int_max ->
  0 <= end_ <= int_max - 1024 ->
  forall (player : Player) (p : Z),
    exists (ws : list (list (list byte))) (p' : Z),
      seamlessLoop iters player (mkSlice l p) start end_ format
      = Some (player ++ concat ws, mkSlice l p')
      /\ length ws = iters
      /\ Forall (fun w => concat w = encodeBuffer (passSamples l start end_)
                          /\ Forall wholeSamples w) ws.
Proof.
  intros Hstart Hend.
  assert (Hseg : int_sub end_ start = end_ - start).
  { unfold int_sub. apply wrap_small. int_range. }
  induction iters as [|iters IH]; intros player p; cbn [seamlessLoop].
  - exists [], p. cbn [concat]. rewrite app_nil_r.
    split; [reflexivity|]. split; [reflexivity | constructor].
  - unfold seamlessLoopBody. rewrite slice_seek, Hseg by lia.
    destruct (slice_play player l start (end_ - start) format
                ltac:(lia) ltac:(lia)) as (w1 & p1 & Hrun1 & Hbytes1 & Hwf1).
    rewrite Hrun1.
    destruct (IH (player ++ w1) p1) as (ws & p' & Hrun & Hlen & Hall).
    exists (w1 :: ws), p'. rewrite Hrun. cbn [concat length].
    rewrite <- app_assoc.
    split; [reflexivity|]. split; [lia|].
    constructor; [split; assumption | exact Hall].
Qed.

Lemma concat_passes (ws : list (list (list byte))) (e : list byte) :
  Forall (fun w => concat w = e /\ Forall wholeSamples w) ws ->
  concat (concat ws) = concat (replicate (length ws) e)
  /\ Forall wholeSamples (concat ws).
Proof.
  induction 1 as [|w ws [Hw Hwf] _ [IHc IHf]]; cbn [concat length replicate].
  - split; [reflexivity | constructor].
  - rewrite concat_app, Hw, IHc. split; [reflexivity|].
    apply Forall_app. split; assumption.
Qed.

(** X2: the loop is periodic on a slice of samples: whatever the cursor
    position it starts from, each of its passes writes the same bytes, so
    [iters] passes write [iters] copies of the bytes of one pass. *)
Theorem loop_repeats_one_pass
    (l : list sample) (start end_ : Z) (format : Format) (iters : nat) :
  0 <= start <= int_max ->
  0 <= end_ <= int_max - 1024 ->
  forall (player : Player) (p : Z),
    exists (w : list (list byte)) (p' : Z),
      seamlessLoop iters player (mkSlice l p) start end_ format
      = Some (player ++ w, mkSlice l p')
      /\ concat w
         = concat (replicate iters (encodeBuffer (passSamples l start end_)))
      /\ Forall wholeSamples w.
Proof.
  intros Hstart Hend player p.
  destruct (slice_loop l start end_ format iters Hstart Hend player p)
    as (ws & p' & Hrun & Hlen & Hall).
  destruct (concat_passes ws _ Hall) as [Hbytes Hwf].
  exists (concat ws), p'. rewrite Hlen in Hbytes.
  split; [exact Hrun|]. split; [exact Hbytes | exact Hwf].
Qed.

Lemma loop_repeats_one_pass_witness :
  exists (w : list (list byte)) (p' : Z),
    seamlessLoop 3 [] (mkSlice tenSamples 7) 2 5 fmt44k
    = Some ([] ++ w, mkSlice tenSamples p')
    /\ concat w
       = concat (replicate 3 (encodeBuffer (passSamples tenSamples 2 5)))
    /\ Forall wholeSamples w.
Proof.
  apply (loop_repeats_one_pass tenSamples 2 5 fmt44k 3).
  - vm_compute. split; congruence.
  - vm_compute. split; congruence.
Defined.

Section PlayAnyStream.
Context {S : Type} `{StreamSeekerLaws S}.

Lemma playLoop_any (segmentLength : Z) (fuel : nat) :
  forall (s : S) (samplesPlayed : Z) (player : Player),
    (Z.to_nat (Len s - Position s) < fuel)%nat ->
    exists (w : list (list byte)) (s' : S),
      playLoop fuel player s segmentLength samplesPlayed
      = Some (player ++ w, s')
      /\ Forall wholeSamples w
      /\ (segmentLength <= samplesPlayed -> w = [])
      /\ (0 <= samplesPlayed < segmentLength ->
          segmentLength <= int_max - 1024 ->
          4 * samplesPlayed + Z.of_nat (length (concat w))
          < 4 * (segmentLength + 1024)).
Proof.
  induction fuel as [|fuel IH]; intros s played player Hfuel; [lia|].
  destruct (Z.le_gt_cases segmentLength played) as [Hdone|Hgo].
  { exists [], s. rewrite playLoop_done by exact Hdone. rewrite app_nil_r.
    split; [reflexivity|]. split; [constructor|].
    split; [reflexivity | lia]. }
  destruct (Stream s 1024) as [[b ok] s'] eqn:E.
  rewrite (playLoop_step _ _ _ _ _ _ _ _ Hgo E).
  destruct (negb ok || (length b =? 0)%nat) eqn:Hbreak.
  { exists [], s'. rewrite app_nil_r.
    split; [reflexivity|]. split; [constructor|].
    split; [reflexivity|]. cbn [concat length]. lia. }
  destruct (pull_continues _ _ _ _ E Hbreak) as (-> & Hb & Hadv).
  destruct (IH s' (int_add played (Z.of_nat (length b)))
              (Write player (encodeBuffer b)) ltac:(lia))
    as (w & s'' & Hrun & Hwf & Hnone & Hbound).
  exists (encodeBuffer b :: w), s''. rewrite Hrun. unfold Write.
  split; [rewrite <- app_assoc; reflexivity|].
  split; [constructor; [apply wholeSamples_encode; lia | exact Hwf]|].
  split; [lia|].
  intros Hplayed Hseg.
  assert (Hadd : int_add played (Z.of_nat (length b))
                 = played + Z.of_nat (length b)).
  { unfold int_add. apply wrap_small. int_range. }
  rewrite Hadd in Hnone, Hbound.
  cbn [concat]. rewrite length_app, encodeBuffer_length.
  destruct (Z.le_gt_cases segmentLength (played + Z.of_nat (length b)))
    as [Hstop|Hmore].
  - rewrite (Hnone Hstop). cbn [concat length]. lia.
  - specialize (Hbound ltac:(lia) Hseg). lia.
Qed.

(** X3: on every stream playAudioSegment comes to an end, only adds to
    what the player was handed before, and hands it nothing but buffers
    of whole samples: at least one and at most 1024 samples, four bytes
    each.  When no sample is asked for it writes nothing. *)
Theorem playAudioSegment_writes_whole_samples
    (player : Player) (streamer : S) (segmentLength : Z) (format : Format) :
  exists (w : list (list byte)) (streamer' : S),
    playAudioSegment player streamer segmentLength format
    = Some (player ++ w, streamer')
    /\ Forall wholeSamples w
    /\ (segmentLength <= 0 -> w = []).
Proof.
  destruct (playLoop_any segmentLength (fuelOf streamer) streamer 0 player
              ltac:(unfold fuelOf; lia))
    as (w & s' & Hrun & Hwf & Hnone & _).
  exists w, s'. split; [exact Hrun|]. split; [exact Hwf | exact Hnone].
Qed.

(** X4: playAudioSegment overshoots by less than one batch: asked for
    [segmentLength > 0] samples it writes fewer than
    [segmentLength + 1024] samples' worth of bytes. *)
Theorem playAudioSegment_overshoot_bound
    (player : Player) (streamer : S) (segmentLength : Z) (format : Format) :
  0 < segmentLength <= int_max - 1024 ->
  exists (w : list (list byte)) (streamer' : S),
    playAudioSegment player streamer segmentLength format
    = Some (player ++ w, streamer')
    /\ Z.of_nat (length (concat w)) < 4 * (segmentLength + 1024).
Proof.
  intros Hseg.
  destruct (playLoop_any segmentLength (fuelOf streamer) streamer 0 player
              ltac:(unfold fuelOf; lia))
    as (w & s' & Hrun & _ & _ & Hbound).
  exists w, s'. split; [exact Hrun|].
  specialize (Hbound ltac:(lia) ltac:(lia)). lia.
Qed.

End PlayAnyStream.

Lemma playAudioSegment_writes_whole_samples_witness :
  exists (w : list (list byte)) (streamer' : SliceStream),
    playAudioSegment [] (newSliceStream hundredSamples) 30 fmt44k
    = Some ([] ++ w, streamer')
    /\ Forall wholeSamples w
    /\ (30 <= 0 -> w = []).
Proof.
  exact (playAudioSegment_writes_whole_samples
           [] (newSliceStream hundredSamples) 30 fmt44k).
Defined.

Lemma playAudioSegment_overshoot_bound_witness :
  exists (w : list (list byte)) (streamer' : SliceStream),
    playAudioSegment [] (newSliceStream hundredSamples) 30 fmt44k
    = Some ([] ++ w, streamer')
    /\ Z.of_nat (length (concat w)) < 4 * (30 + 1024).
Proof.
  apply (playAudioSegment_overshoot_bound
           [] (newSliceStream hundredSamples) 30 fmt44k).
  vm_compute. split; congruence.
Defined.

(** * More about detectLoopSegment *)

(** On a slice of samples the result is made of the last two boundaries. *)
Lemma detect_slice (l : list sample) :
  Z.of_nat (length l) < 2 ^ 53 - 1 ->
  exists streamer',
    detectLoopSegment (newSliceStream l)
    = Some (fst (lastTwo (map Z.of_nat (boundaries l))),
            snd (lastTwo (map Z.of_nat (boundaries l))), streamer').
Proof.
  intros Hlen.
  destruct (detectLoopSegment_spec (newSliceStream l) (slice_scannable l Hlen))
    as (a & b & s' & Hrun & Hpair & _).
  rewrite slice_recorded in Hpair. rewrite <- Hpair. cbn [fst snd].
  exists s'. exact Hrun.
Qed.



Lemma lastTwo_cases (bs : list Z) :
  (snd (lastTwo bs) = 0 /\ fst (lastTwo bs) = 0 /\ bs = []
   \/ In (snd (lastTwo bs)) bs)
  /\ (fst (lastTwo bs) = 0 \/ In (fst (lastTwo bs)) bs).
Proof.
  unfold lastTwo.
  destruct (rev bs) as [|e [|s r]] eqn:E;
    apply (f_equal (@rev Z)) in E; rewrite rev_involutive in E; subst bs;
    cbn [fst snd rev app].
  - split; [left; repeat split | left]; reflexivity.
  - split; [right; left; reflexivity | left; reflexivity].
  - split; right; apply in_app_iff.
    + right. left. reflexivity.
    + left. apply in_app_iff. right. left. reflexivity.
Qed.

(** The last two boundaries are apart by more than a silence duration,
    and the silent run a sequence ends with lies after the last one. *)
Lemma boundaries_gap (l : list sample) :
  let pair := lastTwo (map Z.of_nat (boundaries l)) in
  (boundaries l = [] \/ silenceDuration < snd pair - fst pair)
  /\ 0 <= fst pair
  /\ snd pair + Z.of_nat (leadingTrue (reverse (map silent l)))
     <= Z.of_nat (length l).
Proof.
  cbv zeta. induction l as [|x l IH] using rev_ind.
  - cbn. repeat split; try lia. left. reflexivity.
  - destruct IH as (Hgap & Hpos & Hroom).
    rewrite boundaries_snoc, (List.map_app silent l [x]).
    cbn [map]. rewrite leadingTrue_snoc, length_app. cbn [length].
    destruct (silent x) eqn:Hx; cbn [negb andb].
    + rewrite app_nil_r. repeat split; try assumption; lia.
    + destruct (silenceDuration
                <? Z.of_nat (leadingTrue (reverse (map silent l)))) eqn:Hlong.
      * apply Z.ltb_lt in Hlong. cbv beta iota.
        rewrite List.map_app. cbn [map]. rewrite lastTwo_snoc. cbn [fst snd].
        pose proof (proj2 (lastTwo_cases (map Z.of_nat (boundaries l)))) as Hfst.
        assert (0 <= snd (lastTwo (map Z.of_nat (boundaries l)))).
        { destruct (proj1 (lastTwo_cases (map Z.of_nat (boundaries l))))
            as [(-> & _)|Hin]; [lia|].
          apply in_map_iff in Hin as (k & <- & _). lia. }
        repeat split; lia.
      * cbv beta iota. rewrite app_nil_r.
        repeat split; try assumption; lia.
Qed.

(** X5: the segment detectLoopSegment finds in a slice of samples is
    either the empty (0, 0), when there is no boundary at all, or longer
    than a silence duration: end - start > silenceDuration.  In particular
    start = end happens only as (0, 0). *)
Theorem detected_segment_empty_or_long (l : list sample) :
  Z.of_nat (length l) < 2 ^ 53 - 1 ->
  exists a b streamer',
    detectLoopSegment (newSliceStream l) = Some (a, b, streamer')
    /\ (a = 0 /\ b = 0 /\ boundaries l = [] \/ silenceDuration < b - a).
Proof.
  intros Hlen. destruct (detect_slice l Hlen) as [s' Hrun].
  destruct (boundaries_gap l) as (Hgap & _ & _).
  eexists _, _, s'. split; [exact Hrun|].
  destruct Hgap as [Hnone|Hgap]; [left | right; exact Hgap].
  rewrite Hnone. repeat split; reflexivity.
Qed.

Lemma detected_segment_empty_or_long_witness :
  exists a b streamer',
    detectLoopSegment (newSliceStream longRun) = Some (a, b, streamer')
    /\ (a = 0 /\ b = 0 /\ boundaries longRun = [] \/ silenceDuration < b - a).
Proof.
  apply (detected_segment_empty_or_long longRun). vm_compute. reflexivity.
Defined.



Lemma boundaries_silent_tail (q : list sample) :
  Forall (fun x => silent x = true) q ->
  forall l, boundaries (l ++ q) = boundaries l.
Proof.
  induction 1 as [|x q Hx _ IH]; intros l.
  - rewrite app_nil_r. reflexivity.
  - change (l ++ x :: q) with (l ++ [x] ++ q).
    rewrite app_assoc, IH, boundaries_snoc, Hx. cbn [negb andb].
    apply app_nil_r.
Qed.

(** X7: silence at the end of the samples is not taken into account: a
    silent run that no non-silent sample follows, however long, leaves the
    result what it is without it. *)
Theorem trailing_silence_ignored (l q : list sample) :
  Z.of_nat (length (l ++ q)) < 2 ^ 53 - 1 ->
  Forall (fun x => silent x = true) q ->
  exists a b streamer1 streamer2,
    detectLoopSegment (newSliceStream l) = Some (a, b, streamer1)
    /\ detectLoopSegment (newSliceStream (l ++ q)) = Some (a, b, streamer2).
Proof.
  intros Hlen Hq. rewrite length_app in Hlen.
  destruct (detect_slice l ltac:(lia)) as [s1 Hrun1].
  destruct (detect_slice (l ++ q) ltac:(rewrite length_app; lia))
    as [s2 Hrun2].
  rewrite (boundaries_silent_tail q Hq l) in Hrun2.
  eexists _, _, s1, s2. split; [exact Hrun1 | exact Hrun2].
Qed.

Lemma trailing_silence_ignored_witness :
  exists streamer1 streamer2,
    detectLoopSegment (newSliceStream longRun) = Some (0, 4411, streamer1)
    /\ detectLoopSegment (newSliceStream (longRun ++ replicate 4500 quiet))
       = Some (0, 4411, streamer2).
Proof.
  destruct (trailing_silence_ignored longRun (replicate 4500 quiet))
    as (a & b & streamer1 & streamer2 & Hrun1 & Hrun2).
  - vm_compute. reflexivity.
  - apply Forall_replicate. vm_compute. reflexivity.
  - assert (Hrun : detectLoopSegment (newSliceStream longRun)
                   = Some (0, 4411, mkSlice longRun 4412))
      by (vm_compute; reflexivity).
    rewrite Hrun in Hrun1. injection Hrun1 as <- <- <-.
    eexists _, streamer2. split; [exact Hrun | exact Hrun2].
Defined.





(** The scan of a slice leaves the cursor at the end of the samples. *)
Lemma detectLoop_slice_state (l : list sample) (fuel : nat) :
  forall (p i : Z) (st : DetectState),
    0 <= p <= Z.of_nat (length l) ->
    (Z.to_nat (Z.of_nat (length l) - p) < fuel)%nat ->
    exists st',
      detectLoop fuel (mkSlice l p) i st
      = Some (st', mkSlice l (Z.of_nat (length l))).
Proof.
  induction fuel as [|fuel IH]; intros p i st Hp Hfuel; [lia|].
  destruct (Z.le_gt_cases (Z.of_nat (length l)) p) as [Hend|Hin].
  - rewrite (detectLoop_step _ _ _ _ _ _ _ (slice_pull_end l p Hend)).
    cbn [negb orb]. replace p with (Z.of_nat (length l)) by lia. eauto.
  - rewrite (detectLoop_step _ _ _ _ _ _ _ (slice_pull l p ltac:(lia))).
    set (b := take 1024 (drop (Z.to_nat p) l)).
    assert (Hblen : length b = Nat.min 1024 (length l - Z.to_nat p))
      by (subst b; rewrite length_take, length_drop; reflexivity).
    replace (length b =? 0)%nat with false
      by (symmetry; apply Nat.eqb_neq; lia).
    cbn [negb orb]. apply IH; lia.
Qed.

(** X10: detectLoopSegment uses the stream up: after it has run on a
    slice of samples the cursor is at their end and the next call for
    samples delivers nothing, so nothing can be played before a seek. *)
Theorem detect_leaves_stream_drained (l : list sample) (player : Player)
    (segmentLength : Z) (format : Format) :
  exists a b streamer',
    detectLoopSegment (newSliceStream l) = Some (a, b, streamer')
    /\ streamer' = mkSlice l (Z.of_nat (length l))
    /\ Stream streamer' 1024 = ([], false, streamer')
    /\ playAudioSegment player streamer' segmentLength format
       = Some (player, streamer').
Proof.
  destruct (detectLoop_slice_state l (fuelOf (newSliceStream l)) 0 0 detectInit
              ltac:(lia)) as [st' Hrun].
  { unfold fuelOf, newSliceStream.
    cbn [Len Position SliceStream_StreamSeeker data pos]. lia. }
  unfold newSliceStream in *. unfold detectLoopSegment. rewrite Hrun.
  eexists _, _, _. split; [reflexivity|]. split; [reflexivity|].
  pose proof (slice_pull_end l (Z.of_nat (length l)) (Z.le_refl _)) as Hpull.
  split; [exact Hpull|].
  unfold playAudioSegment, fuelOf.
  destruct (Z.le_gt_cases segmentLength 0) as [Hle|Hgt].
  - apply playLoop_done. exact Hle.
  - rewrite (playLoop_step _ _ _ _ _ _ _ _ Hgt Hpull). reflexivity.
Qed.

Section RecordedIndexes.
Context {S : Type} `{StreamSeekerLaws S}.

Lemma drain_batch_sizes (fuel : nat) :
  forall s : S, Forall (fun b => (length b <= 1024)%nat) (drain fuel s).
Proof.
  induction fuel as [|fuel IH]; intros s; [constructor|].
  destruct (Stream s 1024) as [[b ok] s'] eqn:E.
  rewrite (drain_step _ _ _ _ _ E).
  destruct (negb ok || (length b =? 0)%nat) eqn:Hgo; [constructor|].
  destruct (pull_continues _ _ _ _ E Hgo) as (_ & Hb & _).
  constructor; [lia | apply IH].
Qed.

End RecordedIndexes.

Lemma nth_map_seq (f : nat -> Z) (n q : nat) (d : Z) :
  (q < n)%nat -> nth q (map f (seq 0 n)) d = f q.
Proof.
  intros Hq.
  rewrite (nth_indep _ d (f O)) by (rewrite length_map, length_seq; exact Hq).
  rewrite map_nth, seq_nth by exact Hq. reflexivity.
Qed.

(** The index a sample is seen under is at least its position. *)
Lemma batchIndexes_ge (bs : list (list sample)) :
  Forall (fun b => (length b <= 1024)%nat) bs ->
  forall (i : Z) (q : nat),
    (q < length (concat bs))%nat ->
    i * 1024 + Z.of_nat q <= nth q (batchIndexes i bs) 0.
Proof.
  induction 1 as [|b bs Hb _ IH]; intros i q Hq; cbn [concat length] in Hq;
    [lia|].
  cbn [batchIndexes]. rewrite length_app in Hq.
  destruct (Nat.lt_ge_cases q (length b)) as [Hin|Hout].
  - rewrite app_nth1 by (rewrite length_map, length_seq; exact Hin).
    rewrite nth_map_seq by exact Hin. lia.
  - rewrite app_nth2 by (rewrite length_map, length_seq; exact Hout).
    rewrite length_map, length_seq.
    specialize (IH (i + 1) (q - length b)%nat ltac:(lia)). lia.
Qed.

(** X11: on any stream, short batches included, the index recorded for a
    boundary is never smaller than the position of the boundary among the
    samples read. *)
Theorem recorded_index_not_before_position {S : Type} `{StreamSeekerLaws S}
    (streamer : S) :
  scannable streamer ->
  exists a b streamer',
    detectLoopSegment streamer = Some (a, b, streamer')
    /\ (a, b) = lastTwo (recordedBoundaries (batches streamer))
    /\ Forall2 (fun k r => Z.of_nat k <= r)
         (boundaries (concat (batches streamer)))
         (recordedBoundaries (batches streamer)).
Proof.
  intros Hs.
  destruct (detectLoopSegment_spec streamer Hs) as (a & b & s' & Hrun & Hpair & _).
  exists a, b, s'. split; [exact Hrun|]. split; [exact Hpair|].
  unfold recordedBoundaries.
  assert (Hall : Forall (fun k => (k < length (concat (batches streamer)))%nat)
                   (boundaries (concat (batches streamer)))).
  { apply Forall_forall. intros k Hk. apply list_elem_of_In in Hk.
    apply boundaries_lt. exact Hk. }
  induction Hall as [|k ks Hk _ IH]; cbn [map]; constructor; [|exact IH].
  pose proof (batchIndexes_ge (batches streamer)
                (drain_batch_sizes _ streamer) 0 k Hk). lia.
Qed.

(** The chunked stream obeys the laws of the interface. *)
#[export] Instance ChunkStream_Laws : StreamSeekerLaws ChunkStream.
Proof.
  split.
  - intros s k b ok s' E. cbn [Stream ChunkStream_StreamSeeker] in E.
    destruct (chunks s) as [|c cs].
    + injection E as <- _ _. cbn. lia.
    + injection E as <- _ _. rewrite length_take. lia.
  - intros s k b s' E Hb. cbn [Stream ChunkStream_StreamSeeker] in E.
    destruct (chunks s) as [|c cs] eqn:Ec; [discriminate|].
    injection E as <- _ <-.
    cbn [Len Position ChunkStream_StreamSeeker chunks served].
    rewrite Ec. cbn [concat]. rewrite length_app.
    assert (Hpos : (0 < length (take k c))%nat).
    { destruct (take k c); [congruence | cbn; lia]. }
    rewrite length_take in *.
    destruct (Nat.leb_spec (length c) k) as [Hle|Hgt].
    + lia.
    + cbn [concat]. rewrite length_app, length_drop. lia.
Qed.

Lemma recorded_index_not_before_position_witness :
  map length (batches shortFirst) = [500; 1024; 1024; 1024; 1024; 316]%nat
  /\ boundaries (concat (batches shortFirst)) = [4911%nat]
  /\ recordedBoundaries (batches shortFirst) = [5435]
  /\ exists streamer',
       detectLoopSegment shortFirst = Some (0, 5435, streamer').
Proof.
  destruct (recorded_index_not_before_position shortFirst)
    as (a & b & streamer' & Hrun & Hpair & Hall).
  - vm_compute. reflexivity.
  - assert (Hrec : recordedBoundaries (batches shortFirst) = [5435])
      by (vm_compute; reflexivity).
    rewrite Hrec in Hpair. cbn in Hpair. injection Hpair as -> ->.
    split; [vm_compute; reflexivity|].
    split; [vm_compute; reflexivity|].
    split; [exact Hrec|]. exists streamer'. exact Hrun.
Defined.

(** X12: a sample with a NaN in either channel is never silent: its
    average is NaN, which does not compare below the threshold, so it
    resets the silence counter like a loud sample. *)
Theorem nan_sample_not_silent (v : float64) (i j : Z) (st : DetectState) :
  silent (S754_nan, v) = false
  /\ silent (v, S754_nan) = false
  /\ silenceCount (sampleStep i j (S754_nan, v) st) = 0
  /\ silenceCount (sampleStep i j (v, S754_nan) st) = 0.
Proof.
  assert (H1 : silent (S754_nan, v) = false) by reflexivity.
  assert (H2 : silent (v, S754_nan) = false) by (destruct v; reflexivity).
  split; [exact H1|]. split; [exact H2|].
  unfold sampleStep. fold (silent (S754_nan, v)). fold (silent (v, S754_nan)).
  rewrite H1, H2.
  destruct (silenceDuration <? silenceCount st); split; reflexivity.
Qed.

(** * More about the PCM packing *)

Lemma to_byte_mod (z : Z) : to_byte z = z mod 256.
Proof. unfold to_byte. exact (Z.land_ones z 8 ltac:(lia)). Qed.

Lemma to_byte_high (z : Z) : to_byte (Z.shiftr z 8) = (z / 256) mod 256.
Proof. rewrite to_byte_mod, Z.shiftr_div_pow2 by lia. reflexivity. Qed.

Lemma wrap16_range (z : Z) : - 2 ^ 15 <= wrap16 z < 2 ^ 15.
Proof.
  unfold wrap16.
  pose proof (Z.mod_pos_bound (z + 2 ^ 15) (2 ^ 16) ltac:(lia)). lia.
Qed.

Lemma wrap16_small (z : Z) : - 2 ^ 15 <= z < 2 ^ 15 -> wrap16 z = z.
Proof. intros Hz. unfold wrap16. rewrite Z.mod_small by lia. lia. Qed.

Lemma wrap16_mod (z : Z) : wrap16 (z mod 2 ^ 16) = wrap16 z.
Proof.
  unfold wrap16. f_equal.
  rewrite <- (Z.add_mod_idemp_l z) by lia. reflexivity.
Qed.

(** Every value a channel is stored as fits 16 bits. *)
Lemma quantize_range (v : float64) : - 2 ^ 15 <= quantize v < 2 ^ 15.
Proof.
  unfold quantize, int16_of_f64.
  destruct (f64_trunc (f64_mul v (f64_of_Z 32767))) as [z|]; [|lia].
  destruct ((- 2 ^ 31 <=? z) && (z <? 2 ^ 31)); [apply wrap16_range | lia].
Qed.

Lemma le_bytes_value (z : Z) :
  z mod 256 + 256 * ((z / 256) mod 256) = z mod 2 ^ 16.
Proof.
  change (2 ^ 16) with (256 * 256).
  rewrite Z.rem_mul_r by lia. reflexivity.
Qed.

Lemma packSample_le (x : sample) :
  packSample x = le_int16 (quantize (fst x)) ++ le_int16 (quantize (snd x)).
Proof.
  unfold packSample, le_int16, quantize. cbv zeta.
  rewrite !to_byte_high, !to_byte_mod. reflexivity.
Qed.

Lemma byte_range_mod (z : Z) : 0 <= z mod 256 < 256.
Proof. apply Z.mod_pos_bound. lia. Qed.

(** X13: whatever the samples, the buffer that is written holds, for each
    sample in order, the little-endian two's-complement 16-bit encodings
    of the left and then the right channel value; that is four bytes a
    sample, each between 0 and 255. *)
Theorem encodeBuffer_little_endian (buffer : list sample) :
  encodeBuffer buffer
  = flat_map (fun x => le_int16 (quantize (fst x))
                       ++ le_int16 (quantize (snd x))) buffer
  /\ length (encodeBuffer buffer) = (4 * length buffer)%nat
  /\ Forall (fun b => 0 <= b < 256) (encodeBuffer buffer).
Proof.
  assert (Hflat : encodeBuffer buffer
                  = flat_map (fun x => le_int16 (quantize (fst x))
                                       ++ le_int16 (quantize (snd x))) buffer).
  { rewrite encodeBuffer_flat. apply flat_map_ext. exact packSample_le. }
  split; [exact Hflat|]. split; [apply encodeBuffer_length|].
  rewrite Hflat. clear Hflat.
  induction buffer as [|x buffer IH]; [constructor|].
  cbn [flat_map]. unfold le_int16 at 1 2. cbn [app].
  repeat (constructor; [apply byte_range_mod|]). exact IH.
Qed.

(** X14: reading the written bytes back as interleaved 16-bit
    little-endian PCM gives, sample by sample, the two values the channels
    were stored as, each within the 16-bit range: nothing is lost between
    the conversion to int16 and the bytes. *)
Theorem decode_encode_roundtrip (buffer : list sample) :
  decodeBuffer (encodeBuffer buffer)
  = map (fun x => (quantize (fst x), quantize (snd x))) buffer
  /\ Forall (fun x => - 2 ^ 15 <= quantize (fst x) < 2 ^ 15
                      /\ - 2 ^ 15 <= quantize (snd x) < 2 ^ 15) buffer.
Proof.
  split.
  - rewrite encodeBuffer_flat.
    induction buffer as [|x buffer IH]; [reflexivity|].
    cbn [flat_map map]. rewrite packSample_le. unfold le_int16. cbn [app].
    cbn [decodeBuffer]. rewrite IH. f_equal. unfold int16_of_le.
    rewrite !le_bytes_value, !wrap16_mod.
    rewrite !wrap16_small by apply quantize_range. reflexivity.
  - apply Forall_forall. intros x _. split; apply quantize_range.
Qed.

(** * openAudioFile *)

Lemma HasSuffix_true (s suffix : gostring) :
  HasSuffix s suffix = true <-> exists pre, s = pre ++ suffix.
Proof.
  unfold HasSuffix. rewrite andb_true_iff, Nat.leb_le, bool_decide_eq_true.
  split.
  - intros [_ Hdrop].
    exists (take (length s - length suffix) s).
    transitivity (take (length s - length suffix) s
                  ++ drop (length s - length suffix) s);
      [symmetry; apply take_drop | f_equal; exact Hdrop].
  - intros [pre ->]. rewrite length_app. split; [lia|].
    replace (length pre + length suffix - length suffix)%nat
      with (length pre) by lia.
    apply drop_app_length.
Qed.

(** Of two suffixes of one string the shorter is a suffix of the longer. *)
Lemma suffix_of_suffix (s a b : gostring) :
  HasSuffix s a = true -> HasSuffix s b = true ->
  (length b <= length a)%nat ->
  b = drop (length a - length b) a.
Proof.
  intros [p Hp]%HasSuffix_true [q Hq]%HasSuffix_true Hlen.
  rewrite <- (take_drop (length a - length b) a) in Hp.
  rewrite app_assoc in Hp. rewrite Hp in Hq.
  apply app_inj_2 in Hq as [_ Hq]; [symmetry; exact Hq|].
  rewrite length_drop. lia.
Qed.

Lemma suffixes_exclusive (s : gostring) (c1 c2 : Codec) :
  HasSuffix s (suffixOf c1) = true -> HasSuffix s (suffixOf c2) = true ->
  c1 = c2.
Proof.
  intros H1 H2.
  destruct c1, c2; try reflexivity;
    first [ pose proof (suffix_of_suffix s _ _ H1 H2 ltac:(vm_compute; lia)) as Hbad
          | pose proof (suffix_of_suffix s _ _ H2 H1 ltac:(vm_compute; lia)) as Hbad ];
    vm_compute in Hbad; discriminate.
Qed.

Section OpenAudioFile.
Context {File S E : Type} `{StreamSeeker S} `{Host File S E}.

(** X15: the decoder is chosen by the suffix of the path alone: when
    the file opens and the path ends in [.mp3], [.wav] or [.flac], that
    decoder and no other is run on it, once.  If it succeeds its
    streamer and format are returned and the file stays open; if it
    fails the file is closed and its error returned. *)
Theorem openAudioFile_runs_one_decoder
    (filePath : gostring) (file : File) (codec : Codec) :
  os_Open filePath = inl file ->
  HasSuffix filePath (suffixOf codec) = true ->
  openAudioFile filePath
  = match Decode codec file with
    | inl sf => (inl sf, [EvOpen filePath; EvDecode codec file])
    | inr err =>
        (inr (HostError err),
         [EvOpen filePath; EvDecode codec file; EvCloseFile file])
    end.
Proof.
  intros Hopen Hsuf. unfold openAudioFile. rewrite Hopen.
  assert (Hother : forall c, c <> codec ->
                     HasSuffix filePath (suffixOf c) = false).
  { intros c Hc. destruct (HasSuffix filePath (suffixOf c)) eqn:Hs;
      [|reflexivity].
    exfalso. apply Hc. exact (suffixes_exclusive _ _ _ Hs Hsuf). }
  destruct codec; cbn [suffixOf] in Hsuf.
  - rewrite Hsuf. unfold decoded. destruct (Decode MP3 file); reflexivity.
  - pose proof (Hother MP3 ltac:(discriminate)) as H1.
    cbn [suffixOf] in H1. rewrite H1, Hsuf.
    unfold decoded. destruct (Decode WAV file); reflexivity.
  - pose proof (Hother MP3 ltac:(discriminate)) as H1.
    pose proof (Hother WAV ltac:(discriminate)) as H2.
    cbn [suffixOf] in H1, H2. rewrite H1, H2, Hsuf.
    unfold decoded. destruct (Decode FLAC file); reflexivity.
Qed.

Lemma decoded_cases (filePath : gostring) (codec : Codec) (file : File) :
  (exists sf, Decode codec file = inl sf
              /\ decoded filePath codec file
                 = (inl sf, [EvOpen filePath; EvDecode codec file]))
  \/ (exists err, Decode codec file = inr err
                  /\ decoded filePath codec file
                     = (inr (HostError err),
                        [EvOpen filePath; EvDecode codec file;
                         EvCloseFile file])).
Proof.
  unfold decoded. destruct (Decode codec file) as [sf|err]; eauto.
Qed.

(** Every way through openAudioFile. *)
Lemma openAudioFile_cases (filePath : gostring) :
  (exists err, os_Open filePath = inr err
               /\ openAudioFile filePath
                  = (inr (HostError err), [EvOpen filePath]))
  \/ (exists file, os_Open filePath = inl file
                   /\ (forall c, HasSuffix filePath (suffixOf c) = false)
                   /\ openAudioFile filePath
                      = (inr (Errorf (str "unsupported audio format")),
                         [EvOpen filePath]))
  \/ (exists file codec,
        os_Open filePath = inl file
        /\ HasSuffix filePath (suffixOf codec) = true
        /\ openAudioFile filePath = decoded filePath codec file).
Proof.
  unfold openAudioFile.
  destruct (os_Open filePath) as [file|err]; [|left; eauto].
  right.
  destruct (HasSuffix filePath (str ".mp3")) eqn:H1;
    [right; exists file, MP3; eauto|].
  destruct (HasSuffix filePath (str ".wav")) eqn:H2;
    [right; exists file, WAV; eauto|].
  destruct (HasSuffix filePath (str ".flac")) eqn:H3;
    [right; exists file, FLAC; eauto|].
  left. exists file. split; [reflexivity|]. split; [|reflexivity].
  intros []; assumption.
Qed.

(** X16: openAudioFile closes the file it opened in one case only,
    after a decoder has failed on it, and then returns that decoder's
    error.  When the extension is not supported the file has been
    opened, no decoder is run, and the file is not closed; on success it
    is left open for the streamer. *)
Theorem openAudioFile_closes_only_after_failed_decode
    (filePath : gostring) r (tr : list (Event File)) :
  openAudioFile filePath = (r, tr) ->
  (forall file,
     In (EvCloseFile file) tr ->
     os_Open filePath = inl file
     /\ exists codec err,
          Decode codec file = inr err
          /\ In (EvDecode codec file) tr
          /\ r = inr (HostError err))
  /\ (forall msg,
        r = inr (Errorf msg) ->
        msg = str "unsupported audio format"
        /\ tr = [EvOpen filePath]
        /\ exists file, os_Open filePath = inl file)
  /\ (forall sf, r = inl sf -> forall file, ~ In (EvCloseFile file) tr).
Proof.
  intros Hrun.
  destruct (openAudioFile_cases filePath)
    as [(err & Hopen & Hres)|[(file & Hopen & _ & Hres)
                             |(file & codec & Hopen & _ & Hres)]];
    rewrite Hres in Hrun.
  - injection Hrun as <- <-. split; [|split].
    + intros f [Hf|[]]. discriminate.
    + intros msg Hmsg. discriminate.
    + intros sf Hsf. discriminate.
  - injection Hrun as <- <-. split; [|split].
    + intros f [Hf|[]]. discriminate.
    + intros msg [= <-]. eauto.
    + intros sf Hsf. discriminate.
  - destruct (decoded_cases filePath codec file)
      as [(sf & Hdec & Hd)|(err & Hdec & Hd)];
      rewrite Hd in Hrun; injection Hrun as <- <-; (split; [|split]).
    + intros f [Hf|[Hf|[]]]; discriminate.
    + intros msg Hmsg. discriminate.
    + intros sf' _ f [Hf|[Hf|[]]]; discriminate.
    + intros f [Hf|[Hf|[Hf|[]]]]; try discriminate.
      injection Hf as <-. split; [exact Hopen|].
      exists codec, err. split; [exact Hdec|].
      split; [right; left; reflexivity | reflexivity].
    + intros msg Hmsg. discriminate.
    + intros sf Hsf. discriminate.
Qed.

End OpenAudioFile.

Lemma openAudioFile_runs_one_decoder_witness :
  @openAudioFile _ _ _ (demoHost [] noRuns fmt44k) (str "song.flac")
  = (inl (newSliceStream noRuns, fmt44k),
     [EvOpen (str "song.flac"); EvDecode FLAC (str "song.flac")]).
Proof.
  apply (openAudioFile_runs_one_decoder (H0 := demoHost [] noRuns fmt44k)
           (str "song.flac") (str "song.flac") FLAC).
  - vm_compute. reflexivity.
  - vm_compute. reflexivity.
Defined.

Lemma openAudioFile_closes_only_after_failed_decode_witness :
  openAudioFile (H0 := demoHost [] noRuns fmt44k) (str "tune.mp3")
  = (inr (HostError (str "mp3: invalid data")),
     [EvOpen (str "tune.mp3"); EvDecode MP3 (str "tune.mp3");
      EvCloseFile (str "tune.mp3")])
  /\ (forall file,
        In (EvCloseFile file)
           [EvOpen (str "tune.mp3"); EvDecode MP3 (str "tune.mp3");
            EvCloseFile (str "tune.mp3")] ->
        file = str "tune.mp3").
Proof.
  assert (Hrun : openAudioFile (H0 := demoHost [] noRuns fmt44k)
                   (str "tune.mp3")
                 = (inr (HostError (str "mp3: invalid data")),
                    [EvOpen (str "tune.mp3"); EvDecode MP3 (str "tune.mp3");
                     EvCloseFile (str "tune.mp3")])).
  { vm_compute. reflexivity. }
  split; [exact Hrun|].
  intros file Hin.
  destruct (openAudioFile_closes_only_after_failed_decode
              (H0 := demoHost [] noRuns fmt44k) (str "tune.mp3")
              (inr (HostError (str "mp3: invalid data")))
              [EvOpen (str "tune.mp3"); EvDecode MP3 (str "tune.mp3");
               EvCloseFile (str "tune.mp3")] Hrun)
    as (Hclose & _ & _).
  destruct (Hclose file Hin) as [Hopen _].
  vm_compute in Hopen. injection Hopen as <-. vm_compute. reflexivity.
Defined.

Section Extensions.
Context {File S E : Type} `{StreamSeeker S} `{Host File S E}.

Lemma openAudioFile_unsupported (filePath : gostring) (file : File) :
  os_Open filePath = inl file ->
  (forall c, HasSuffix filePath (suffixOf c) = false) ->
  openAudioFile filePath
  = (inr (Errorf (str "unsupported audio format")), [EvOpen filePath]).
Proof.
  intros Hopen Hnone. unfold openAudioFile. rewrite Hopen.
  pose proof (Hnone MP3) as H1. pose proof (Hnone WAV) as H2.
  pose proof (Hnone FLAC) as H3. cbn [suffixOf] in H1, H2, H3.
  rewrite H1, H2, H3. reflexivity.
Qed.

(** X17: the extension is compared byte for byte: a path of fewer than
    four bytes, and a path that ends in [.MP3], [.WAV] or [.FLAC] in
    capitals, is turned down as an unsupported audio format once it has
    been opened, with no decoder run. *)
Theorem extension_test_is_exact (filePath : gostring) (file : File) :
  os_Open filePath = inl file ->
  (length filePath < 4)%nat
  \/ (exists stem upper,
        filePath = stem ++ upper
        /\ In upper [str ".MP3"; str ".WAV"; str ".FLAC"]) ->
  openAudioFile filePath
  = (inr (Errorf (str "unsupported audio format")), [EvOpen filePath]).
Proof.
  intros Hopen Hcase. apply (openAudioFile_unsupported _ file Hopen).
  intros c. destruct (HasSuffix filePath (suffixOf c)) eqn:Hs; [|reflexivity].
  exfalso. destruct Hcase as [Hshort|(stem & upper & -> & Hupper)].
  - apply HasSuffix_true in Hs as [pre ->]. rewrite length_app in Hshort.
    assert (4 <= length (suffixOf c))%nat by (destruct c; vm_compute; lia).
    lia.
  - assert (Hu : HasSuffix (stem ++ upper) upper = true)
      by (apply HasSuffix_true; eauto).
    destruct Hupper as [<-|[<-|[<-|[]]]]; destruct c;
      first [ pose proof (suffix_of_suffix _ _ _ Hu Hs
                            ltac:(vm_compute; lia)) as Hbad
            | pose proof (suffix_of_suffix _ _ _ Hs Hu
                            ltac:(vm_compute; lia)) as Hbad ];
      vm_compute in Hbad; discriminate.
Qed.

End Extensions.

Lemma extension_test_is_exact_witness :
  @openAudioFile _ _ _ (demoHost [] noRuns fmt44k) (str "SONG.WAV")
  = (inr (Errorf (str "unsupported audio format")), [EvOpen (str "SONG.WAV")]).
Proof.
  apply (extension_test_is_exact (H0 := demoHost [] noRuns fmt44k)
           (str "SONG.WAV") (str "SONG.WAV")).
  - vm_compute. reflexivity.
  - right. exists (str "SONG"), (str ".WAV"). split.
    + vm_compute. reflexivity.
    + right. left. reflexivity.
Defined.

(** * main *)

Lemma detect_slice_result (l : list sample) :
  Z.of_nat (length l) < 2 ^ 53 - 1 ->
  detectLoopSegment (newSliceStream l)
  = Some (fst (lastTwo (map Z.of_nat (boundaries l))),
          snd (lastTwo (map Z.of_nat (boundaries l))),
          mkSlice l (Z.of_nat (length l))).
Proof.
  intros Hlen. destruct (detect_slice l Hlen) as [s' Hrun].
  destruct (detectLoop_slice_state l (fuelOf (newSliceStream l)) 0 0 detectInit
              ltac:(lia)) as [st' Hst].
  { unfold fuelOf, newSliceStream.
    cbn [Len Position SliceStream_StreamSeeker data pos]. lia. }
  unfold newSliceStream in *. unfold detectLoopSegment in *.
  rewrite Hst in *. injection Hrun as Ha Hb _. rewrite Ha, Hb. reflexivity.
Qed.

(** The loop points found in a slice are within its length. *)
Lemma slice_points_bounded (l : list sample) :
  0 <= fst (lastTwo (map Z.of_nat (boundaries l)))
  /\ 0 <= snd (lastTwo (map Z.of_nat (boundaries l))) <= Z.of_nat (length l)
  /\ fst (lastTwo (map Z.of_nat (boundaries l)))
     <= snd (lastTwo (map Z.of_nat (boundaries l))).
Proof.
  destruct (boundaries_gap l) as (Hgap & Hpos & Hroom). cbv zeta in *.
  assert (fst (lastTwo (map Z.of_nat (boundaries l)))
          <= snd (lastTwo (map Z.of_nat (boundaries l)))).
  { destruct Hgap as [Hnone|Hgap]; [rewrite Hnone; cbn; lia|].
    change silenceDuration with 4410 in Hgap. lia. }
  lia.
Qed.

Section EmptySegment.
Context {S : Type} `{StreamSeeker S}.

(** With start = end no pass writes anything. *)
Lemma seamlessLoop_empty_segment (format : Format) (start : Z) (iters : nat) :
  forall (player : Player) (s : S),
    exists s', seamlessLoop iters player s start start format
               = Some (player, s').
Proof.
  induction iters as [|iters IH]; intros player s; cbn [seamlessLoop];
    [eauto|].
  unfold seamlessLoopBody. destruct (Seek s start) as [e s1].
  destruct (playAudioSegment_nothing player s1 (int_sub start start) format)
    as [s' Hrun].
  { right. rewrite int_sub_diag. lia. }
  rewrite Hrun. apply IH.
Qed.

End EmptySegment.

Section Main.
Context {File S E : Type} `{StreamSeekerLaws S} `{Host File S E}.

Lemma detectLoopSegment_total (s : S) :
  exists a b s', detectLoopSegment s = Some (a, b, s').
Proof.
  destruct (detectLoop_total (fuelOf s) s 0 detectInit
              ltac:(unfold fuelOf; lia)) as (st' & s' & Hrun).
  unfold detectLoopSegment. rewrite Hrun. eauto.
Qed.

Lemma seamlessLoop_total (format : Format) (start end_ : Z) (iters : nat) :
  forall (player : Player) (s : S),
    exists player' s',
      seamlessLoop iters player s start end_ format = Some (player', s').
Proof.
  induction iters as [|iters IH]; intros player s; cbn [seamlessLoop];
    [eauto|].
  unfold seamlessLoopBody. destruct (Seek s start) as [e s1].
  unfold playAudioSegment.
  destruct (playLoop_any (int_sub end_ start) (fuelOf s1) s1 0 player
              ltac:(unfold fuelOf; lia)) as (w & s' & Hrun & _).
  rewrite Hrun. apply IH.
Qed.

(** X18: when the audio holds no silent run longer than silenceDuration,
    main announces the segment from 0 to 0, sets up the player and then
    never writes a byte of audio, however many passes the loop makes. *)
Theorem main_without_boundary_plays_nothing
    (iters : nat) (streamer : S) (format : Format)
    (opened : list (Event File)) :
  openAudioFile (strings_TrimSpace stdin_ReadString)
  = (inl (streamer, format), opened) ->
  scannable streamer ->
  Z.of_nat (longestSilentRun (concat (batches streamer))) <= silenceDuration ->
  oto_NewContext (SampleRate format) (NumChannels format) 2 4096 = None ->
  main iters
  = Some ([EvPrint (str "Enter the audio file path: ")] ++ opened
          ++ [EvPrint (str "Detected loop segment from 0 to 0" ++ [newline]);
              EvNewContext (SampleRate format) (NumChannels format) 2 4096;
              EvNewPlayer],
          Looping).
Proof.
  intros Hopen Hs Hquiet Hctx.
  destruct (detectLoopSegment_spec streamer Hs)
    as (a & b & s' & Hrun & Hpair & _).
  unfold recordedBoundaries in Hpair.
  rewrite (no_long_run_no_boundary _ Hquiet) in Hpair.
  cbn [map] in Hpair. unfold lastTwo in Hpair. cbn [rev] in Hpair.
  injection Hpair as -> ->.
  destruct (seamlessLoop_empty_segment format 0 iters [] s') as [s'' Hloop].
  unfold main. rewrite Hopen, Hrun, Hctx, Hloop. cbn [map].
  rewrite app_nil_r. reflexivity.
Qed.

(** X20: main is never stuck in the scan or in a pass of the loop: for
    every number of passes it has either come back or is looping; and
    whenever it has come back no player was made and no audio written. *)
Theorem main_returns_only_without_audio (iters : nat) :
  exists (events : list (Event File)) (outcome : Outcome),
    main iters = Some (events, outcome)
    /\ (outcome = Returned ->
        Forall (fun e => e <> EvNewPlayer /\ forall buf, e <> EvWrite buf)
          events).
Proof.
  unfold main.
  set (filePath := strings_TrimSpace stdin_ReadString).
  assert (Hopened : forall r tr,
            openAudioFile filePath = (r, tr) ->
            Forall (fun e : Event File =>
                      e <> EvNewPlayer /\ forall buf, e <> EvWrite buf) tr).
  { intros r tr Hrun.
    destruct (openAudioFile_cases filePath)
      as [(err & _ & Hres)|[(file & _ & _ & Hres)
                           |(file & codec & _ & _ & Hres)]];
      rewrite Hres in Hrun.
    - injection Hrun as <- <-. repeat constructor; discriminate.
    - injection Hrun as <- <-. repeat constructor; discriminate.
    - destruct (decoded_cases filePath codec file)
        as [(sf & _ & Hd)|(err & _ & Hd)];
        rewrite Hd in Hrun; injection Hrun as <- <-;
        repeat constructor; discriminate. }
  destruct (openAudioFile filePath) as [[[streamer format]|err] opened] eqn:Ho.
  - destruct (detectLoopSegment_total streamer) as (a & b & s' & Hrun).
    rewrite Hrun.
    destruct (oto_NewContext (SampleRate format) (NumChannels format) 2 4096)
      as [err|].
    + eexists _, Returned. split; [reflexivity|]. intros _.
      apply Forall_app. split; [repeat constructor; discriminate|].
      apply Forall_app. split; [exact (Hopened _ _ eq_refl)|].
      repeat constructor; discriminate.
    + destruct (seamlessLoop_total format a b iters [] s')
        as (player & s'' & Hloop).
      rewrite Hloop. eexists _, Looping. split; [reflexivity|].
      discriminate.
  - eexists _, Returned. split; [reflexivity|]. intros _.
    apply Forall_app. split; [repeat constructor; discriminate|].
    apply Forall_app. split; [exact (Hopened _ _ eq_refl)|].
    repeat constructor; discriminate.
Qed.

End Main.

Section MainOnSlices.
Context {File E : Type} `{Host File SliceStream E}.

(** X19: the whole program on decoded samples [l]: main announces the
    last two boundaries of [l] as the segment, sets up the player, and
    in [iters] passes of the loop writes [iters] copies of the PCM bytes
    of the samples from start on that whole batches covering
    end - start samples take in, in buffers of whole samples, although
    the scan had used the stream up. *)
Theorem main_plays_detected_segment
    (iters : nat) (l : list sample) (format : Format)
    (opened : list (Event File)) :
  openAudioFile (strings_TrimSpace stdin_ReadString)
  = (inl (newSliceStream l, format), opened) ->
  Z.of_nat (length l) < 2 ^ 53 - 1 ->
  oto_NewContext (SampleRate format) (NumChannels format) 2 4096 = None ->
  let start := fst (lastTwo (map Z.of_nat (boundaries l))) in
  let end_ := snd (lastTwo (map Z.of_nat (boundaries l))) in
  exists w : list (list byte),
    main iters
    = Some ([EvPrint (str "Enter the audio file path: ")] ++ opened
            ++ [EvPrint (str "Detected loop segment from " ++ showInt start
                         ++ str " to " ++ showInt end_ ++ [newline])]
            ++ [EvNewContext (SampleRate format) (NumChannels format) 2 4096;
                EvNewPlayer]
            ++ map EvWrite w,
            Looping)
    /\ concat w
       = concat (replicate iters (encodeBuffer (passSamples l start end_)))
    /\ Forall wholeSamples w.
Proof.
  intros Hopen Hlen Hctx start end_.
  destruct (slice_points_bounded l) as (Ha & Hb & Hab).
  fold start in Ha, Hab. fold end_ in Hb, Hab.
  assert (Hpow : 2 ^ 53 = 9007199254740992) by reflexivity.
  destruct (slice_loop l start end_ format iters
              ltac:(unfold int_max; lia) ltac:(unfold int_max; lia)
              [] (Z.of_nat (length l)))
    as (ws & p' & Hloop & Hn & Hall).
  destruct (concat_passes ws _ Hall) as [Hbytes Hwf].
  rewrite Hn in Hbytes.
  exists (concat ws). split; [|split; [exact Hbytes | exact Hwf]].
  unfold main.
  rewrite Hopen, (detect_slice_result l Hlen), Hctx.
  fold start. fold end_. rewrite Hloop. reflexivity.
Qed.

End MainOnSlices.

Lemma main_plays_detected_segment_witness :
  exists w : list (list byte),
    @main _ _ _ _ (demoHost (str " take.wav ") longRun fmt44k) 2
    = Some ([EvPrint (str "Enter the audio file path: ");
             EvOpen (str "take.wav"); EvDecode WAV (str "take.wav");
             EvPrint (str "Detected loop segment from 0 to 4411" ++ [newline]);
             EvNewContext 44100 2 2 4096; EvNewPlayer]
            ++ map EvWrite w,
            Looping)
    /\ concat w
       = concat (replicate 2 (encodeBuffer (passSamples longRun 0 4411)))
    /\ Forall wholeSamples w.
Proof.
  destruct (main_plays_detected_segment
              (H := demoHost (str " take.wav ") longRun fmt44k)
              2 longRun fmt44k
              [EvOpen (str "take.wav"); EvDecode WAV (str "take.wav")])
    as (w & Hrun & Hbytes & Hwf).
  - vm_compute. reflexivity.
  - vm_compute. reflexivity.
  - vm_compute. reflexivity.
  - assert (Hpair : lastTwo (map Z.of_nat (boundaries longRun)) = (0, 4411))
      by (vm_compute; reflexivity).
    rewrite Hpair in Hrun, Hbytes. cbn [fst snd] in Hrun, Hbytes.
    exists w. split; [exact Hrun|]. split; [exact Hbytes | exact Hwf].
Defined.

Lemma main_without_boundary_plays_nothing_witness :
  @main _ _ _ _ (demoHost (str "hum.flac") noRuns fmt48k) 5
  = Some ([EvPrint (str "Enter the audio file path: ");
           EvOpen (str "hum.flac"); EvDecode FLAC (str "hum.flac");
           EvPrint (str "Detected loop segment from 0 to 0" ++ [newline]);
           EvNewContext 48000 2 2 4096; EvNewPlayer],
          Looping).
Proof.
  apply (main_without_boundary_plays_nothing
           (H1 := demoHost (str "hum.flac") noRuns fmt48k)
           5 (newSliceStream noRuns) fmt48k
           [EvOpen (str "hum.flac"); EvDecode FLAC (str "hum.flac")]).
  - vm_compute. reflexivity.
  - vm_compute. reflexivity.
  - vm_compute. congruence.
  - vm_compute. reflexivity.
Defined.

Lemma main_returns_only_without_audio_witness :
  exists (events : list (Event gostring)) (outcome : Outcome),
    @main _ _ _ _ (demoHost (str "notes.txt") noRuns fmt44k) 3
    = Some (events, outcome)
    /\ (outcome = Returned ->
        Forall (fun e => e <> EvNewPlayer /\ forall buf, e <> EvWrite buf)
          events).
Proof.
  exact (main_returns_only_without_audio
           (H1 := demoHost (str "notes.txt") noRuns fmt44k) 3).
Defined.

(** * The segment and what follows it *)

Lemma passSamples_split (l : list sample) (start end_ : Z) :
  0 <= start <= end_ ->
  passSamples l start end_
  = take (Z.to_nat (end_ - start)) (drop (Z.to_nat start) l)
    ++ take (Z.to_nat (wholeBatches (end_ - start) - (end_ - start)))
         (drop (Z.to_nat end_) l)
  /\ 0 <= wholeBatches (end_ - start) - (end_ - start) < 1024.
Proof.
  intros Hse. unfold passSamples.
  assert (Hpad : 0 <= wholeBatches (end_ - start) - (end_ - start) < 1024).
  { destruct (Z.le_gt_cases (end_ - start) 0) as [Hz|Hpos].
    - rewrite wholeBatches_nonpos by exact Hz. lia.
    - pose proof (wholeBatches_pos (end_ - start) Hpos). lia. }
  split; [|exact Hpad].
  replace (Z.to_nat (wholeBatches (end_ - start)))
    with (Z.to_nat (end_ - start)
          + Z.to_nat (wholeBatches (end_ - start) - (end_ - start)))%nat
    by lia.
  rewrite <- take_take_drop, drop_drop.
  replace (Z.to_nat start + Z.to_nat (end_ - start))%nat with (Z.to_nat end_)
    by lia.
  reflexivity.
Qed.

(** X21: a pass over a slice of samples plays the segment itself first,
    the samples from start up to end, and then goes on past end with
    fewer than 1024 further samples: those that fill up the last batch. *)
Theorem pass_plays_segment_then_overshoot
    (player : Player) (l : list sample) (p start end_ : Z) (format : Format) :
  0 <= start <= end_ ->
  end_ <= int_max - 1024 ->
  exists (w : list (list byte)) (p' : Z) (overshoot : list sample),
    seamlessLoopBody player (mkSlice l p) start end_ format
    = Some (player ++ w, mkSlice l p')
    /\ concat w
       = encodeBuffer (take (Z.to_nat (end_ - start)) (drop (Z.to_nat start) l))
         ++ encodeBuffer overshoot
    /\ overshoot
       = take (Z.to_nat (wholeBatches (end_ - start) - (end_ - start)))
           (drop (Z.to_nat end_) l)
    /\ (length overshoot < 1024)%nat.
Proof.
  intros Hse Hend. unfold seamlessLoopBody.
  rewrite slice_seek by lia.
  assert (Hseg : int_sub end_ start = end_ - start).
  { unfold int_sub. apply wrap_small. int_range. }
  rewrite Hseg.
  destruct (slice_play player l start (end_ - start) format
              ltac:(lia) ltac:(lia)) as (w & p' & Hrun & Hbytes & _).
  destruct (passSamples_split l start end_ Hse) as [Hsplit Hpad].
  unfold passSamples in Hsplit. rewrite Hsplit, encodeBuffer_app in Hbytes.
  eexists w, p', _. split; [exact Hrun|]. split; [exact Hbytes|].
  split; [reflexivity|]. rewrite length_take. lia.
Qed.

Lemma pass_plays_segment_then_overshoot_witness :
  exists (w : list (list byte)) (p' : Z) (overshoot : list sample),
    seamlessLoopBody [] (newSliceStream tenSamples) 2 5 fmt44k
    = Some ([] ++ w, mkSlice tenSamples p')
    /\ concat w
       = encodeBuffer (take (Z.to_nat (5 - 2)) (drop (Z.to_nat 2) tenSamples))
         ++ encodeBuffer overshoot
    /\ overshoot
       = take (Z.to_nat (wholeBatches (5 - 2) - (5 - 2)))
           (drop (Z.to_nat 5) tenSamples)
    /\ (length overshoot < 1024)%nat.
Proof.
  apply (pass_plays_segment_then_overshoot [] tenSamples 0 2 5 fmt44k).
  - vm_compute. split; congruence.
  - vm_compute. congruence.
Defined.
